(** * ngx-ui-router-url-type-factory: the type registry and the transition resolver

    A shallow embedding of [src/factory/url-type-factory.service.ts]
    (class [UrlTypeFactoryService]) and of the loop of
    [src/factory/url-type-factory.ts] ([configure]).

    The service manipulates untyped JavaScript values, so the embedding
    starts with a small model of them:

    - a value is a primitive, a plain object (an address and its own
      properties), a function (an address and a defunctionalised closure)
      or a promise (an address and its eventual settlement);
    - numbers are the integers and [NaN]; a string is a Rocq string (a
      JavaScript string under a fixed injective encoding), and
      [String.prototype.toUpperCase], whose case tables are the engine's,
      is an argument of the one function that calls it;
    - a plain object has no accessor properties and inherits nothing but
      [Object.prototype]; the four keys the service reads (the two marker
      tokens, [$promise] and [then]) are never found on a prototype, with
      the exception of [then] on a promise;
    - [represent] and [resolve] of a type descriptor are total functions
      ([represent] returns a string, as its TypeScript signature says);
    - an object with a [then] method is a thenable: the method is described
      by the settlement it passes to its callbacks and by whether it
      returns a promise of the callback's result, as a promise library's
      does, or nothing;
    - code the service hands control to but whose behaviour is not given (a
      function that is none of the above, a thenable that passes on another
      thenable) ends an evaluation with [Foreign]. *)

From Stdlib Require Import ZArith Ascii String.
From stdpp Require Import gmap strings list fin_maps pretty.

Set Warnings "-register-all,-clear-no-such-hyp".
Local Open Scope string_scope.
Local Open Scope list_scope.

(** ** JavaScript values *)

Definition addr := nat.

(** Angular's [Injector]; the service only passes it on to [resolve]. *)
Inductive Injector := NgInjector (tag : nat).

(** The eventual fate of a promise. *)
Inductive Outcome (V : Type) :=
| Fulfills (v : V)
| Rejects (reason : V)
| NeverSettles.
Arguments Fulfills {V} v.
Arguments Rejects {V} reason.
Arguments NeverSettles {V}.

Inductive JsVal :=
| JUndefined
| JNull
| JBool (b : bool)
| JNum (n : Z)
| JNaN
| JStr (s : string)
| JObj (a : addr) (props : gmap string JsVal)
| JFun (a : addr) (k : Closure)
| JPromise (a : addr) (o : Outcome JsVal)
with Closure :=
| KReturn (repr : JsVal)
    (* [() => repr], line 251 *)
| KResolve (type_name : string) (repr : JsVal) (injector : Injector)
    (* [() => type.resolve(repr, injector)], line 254; the captured [type]
       is referred to by its name, which the registry keeps unique *)
| KPromiseThen
    (* [Promise.prototype.then] *)
| KThen (o : Outcome JsVal) (chained : bool)
    (* the [then] method of a thenable: it passes the settlement [o] to the
       callbacks it is given; when [chained] it returns a promise of the
       callback's result, which has a [catch], otherwise [undefined] *)
| KForeign.
    (* any other function *)

(** Exceptions the service raises, and the [TypeError] of a property read
    or a call on a value that does not support it. *)
Inductive Exn :=
| TypeError
| UrlTypeFactoryRegistrationError (message : string)
| UrlTypeFactoryResolveError (message : string).

Inductive Completion (A : Type) :=
| Normal (a : A)
| Throw (e : Exn)
| Foreign.
Arguments Normal {A} a.
Arguments Throw {A} e.
Arguments Foreign {A}.

(** Sequencing: an abrupt completion skips the rest; written [x ← c; k]. *)
#[export] Instance Completion_bind : MBind Completion := fun A B f c =>
  match c with
  | Normal a => f a
  | Throw e => Throw e
  | Foreign => Foreign
  end.

(** [typeof v] *)
Definition typeof (v : JsVal) : string :=
  match v with
  | JUndefined => "undefined"
  | JNull => "object"
  | JBool _ => "boolean"
  | JNum _ | JNaN => "number"
  | JStr _ => "string"
  | JObj _ _ => "object"
  | JFun _ _ => "function"
  | JPromise _ _ => "object"
  end.

(** [!!v] *)
Definition truthy (v : JsVal) : bool :=
  match v with
  | JUndefined | JNull | JNaN => false
  | JBool b => b
  | JNum n => negb (n =? 0)%Z
  | JStr s => negb (s =? "")
  | JObj _ _ | JFun _ _ | JPromise _ _ => true
  end.

(** [a === b] *)
Definition strict_equals (a b : JsVal) : bool :=
  match a, b with
  | JUndefined, JUndefined => true
  | JNull, JNull => true
  | JBool x, JBool y => Bool.eqb x y
  | JNum x, JNum y => (x =? y)%Z
  | JStr x, JStr y => (x =? y)
  | JObj x _, JObj y _ => Nat.eqb x y
  | JFun x _, JFun y _ => Nat.eqb x y
  | JPromise x _, JPromise y _ => Nat.eqb x y
  | _, _ => false
  end.

(** [v.hasOwnProperty(key)]; every call site guards it with [!!v]. *)
Definition hasOwnProperty (v : JsVal) (key : string) : bool :=
  match v with
  | JObj _ props => bool_decide (is_Some (props !! key))
  | _ => false
  end.

(** [v[key]] *)
Definition get (v : JsVal) (key : string) : Completion JsVal :=
  match v with
  | JUndefined | JNull => Throw TypeError
  | JObj _ props => Normal (default JUndefined (props !! key))
  | JPromise a _ => Normal (if key =? "then" then JFun a KPromiseThen else JUndefined)
  | _ => Normal JUndefined
  end.

(** [s.toUpperCase()] on a string of ASCII characters: there the engine's
    case tables change the letters [a] to [z] and nothing else. The
    examples run the codec with this function. *)
Definition ascii_toUpperCase (c : ascii) : ascii :=
  let n := nat_of_ascii c in
  if (97 <=? n)%nat && (n <=? 122)%nat then ascii_of_nat (n - 32) else c.

Fixpoint toUpperCase_ASCII (s : string) : string :=
  match s with
  | EmptyString => EmptyString
  | String c rest => String (ascii_toUpperCase c) (toUpperCase_ASCII rest)
  end.

(** ** Type descriptors and the service state *)

Record RegExp := { source : string }.

(** [interface UrlType<T>], lines 25-59; [bindable] is optional. *)
Record UrlType := {
  name : string;
  match_ : RegExp;
  represent : JsVal -> string;
  resolve : JsVal -> Injector -> JsVal;
  bindable : option bool
}.

Definition REPR_TOKEN : string := "__ngx_ui_router_url_type__repr".
Definition RSLV_TOKEN : string := "__ngx_ui_router_url_type__rslv".

(** The fields [_registeredTypes] and [_bindableTypes] of the service. *)
Record UrlTypeFactoryService := {
  _registeredTypes : list UrlType;
  _bindableTypes : list UrlType
}.

Definition new_service : UrlTypeFactoryService :=
  {| _registeredTypes := []; _bindableTypes := [] |}.

(** ** The codec installed by [registerType], lines 239-286 *)

Module Codec.

Definition encode (type : UrlType) (obj : JsVal) : Completion JsVal :=
  marker ← get obj REPR_TOKEN;
  if truthy marker then Normal marker
  else Normal (JStr (represent type obj)).

(** [decode] allocates the carrier object and its closure at the next two
    free addresses. *)
Definition decode (type : UrlType) (injector : Injector) (repr : JsVal)
    (next : addr) : JsVal * addr :=
  let obj := next in
  let fn := S next in
  if truthy repr && (typeof repr =? "object") then
    (JObj obj (<[RSLV_TOKEN := JFun fn (KReturn repr)]>
                (<[REPR_TOKEN := JStr (represent type repr)]> ∅)),
     S (S next))
  else
    (JObj obj (<[RSLV_TOKEN := JFun fn (KResolve (name type) repr injector)]>
                (<[REPR_TOKEN := repr]> ∅)),
     S (S next)).

Definition is_ (obj : JsVal) : bool :=
  truthy obj && (typeof obj =? "object") &&
  hasOwnProperty obj REPR_TOKEN && hasOwnProperty obj RSLV_TOKEN.

(** [equals] calls [String.prototype.toUpperCase] (line 278); the engine's
    function is its first argument. *)
Definition equals (toUpperCase : string → string) (type : UrlType) (a b : JsVal)
    : Completion bool :=
  if truthy a && truthy b &&
     (typeof a =? "object") && (typeof b =? "object") &&
     hasOwnProperty a REPR_TOKEN && hasOwnProperty b REPR_TOKEN then
    ra ← get a REPR_TOKEN;
    rb ← get b REPR_TOKEN;
    Normal (strict_equals ra rb)
  else if truthy a && truthy b &&
     (typeof a =? "object") && (typeof b =? "object") then
    Normal (toUpperCase (represent type a) =? toUpperCase (represent type b))
  else
    Normal (strict_equals a b).

End Codec.

(** The object handed to [router.urlService.config.type]. *)
Record ParamTypeDefinition := {
  pt_encode : JsVal -> Completion JsVal;
  pt_decode : JsVal -> addr -> JsVal * addr;
  pt_is : JsVal -> bool;
  pt_equals : (string -> string) -> JsVal -> JsVal -> Completion bool;
  pt_pattern : RegExp
}.

(** What the service uses of the host router: the table of parameter
    types, to which [config.type(name, definition)] adds an entry. *)
Record UIRouter := { paramTypes : list (string * ParamTypeDefinition) }.

Definition config_type (type_name : string) (definition : ParamTypeDefinition)
    (router : UIRouter) : UIRouter :=
  {| paramTypes := paramTypes router ++ [(type_name, definition)] |}.

(** ** [getTypeByName], lines 158-167 *)

Fixpoint find_by_name (type_name : string) (types : list UrlType) : option UrlType :=
  match types with
  | [] => None
  | type :: rest =>
      if name type =? type_name then Some type else find_by_name type_name rest
  end.

Definition getTypeByName (svc : UrlTypeFactoryService) (type_name : string)
    (bindableOnly : bool) : option UrlType :=
  let types := if bindableOnly then _bindableTypes svc else _registeredTypes svc in
  find_by_name type_name types.

(** ** [registerType], lines 211-289 *)

Definition newline : string := String (ascii_of_nat 10) EmptyString.

Fixpoint spaces (n : nat) : string :=
  match n with
  | O => EmptyString
  | S m => String " " (spaces m)
  end.

Definition registration_message (registered_name : string) : string :=
  "There is already a type with the" +:+ newline +:+ spaces 20 +:+
  "name '" +:+ registered_name +:+ "' registered.".

(** The loop of lines 215-222. *)
Fixpoint assert_not_registered (type : UrlType) (registered : list UrlType)
    : Completion unit :=
  match registered with
  | [] => Normal tt
  | registeredType :: rest =>
      if name type =? name registeredType then
        Throw (UrlTypeFactoryRegistrationError
                 (registration_message (name registeredType)))
      else assert_not_registered type rest
  end.

Definition definition_of (type : UrlType) (injector : Injector) : ParamTypeDefinition :=
  {| pt_encode := Codec.encode type;
     pt_decode := Codec.decode type injector;
     pt_is := Codec.is_;
     pt_equals := fun toUpperCase => Codec.equals toUpperCase type;
     pt_pattern := match_ type |}.

(** [type.bindable] used as a condition. *)
Definition bindable_flag (type : UrlType) : bool :=
  match bindable type with
  | Some b => b
  | None => false
  end.

Definition registerType (type : UrlType) (router : UIRouter) (injector : Injector)
    (svc : UrlTypeFactoryService)
    : Completion unit * UrlTypeFactoryService * UIRouter :=
  match assert_not_registered type (_registeredTypes svc) with
  | Normal _ =>
      let registered := _registeredTypes svc ++ [type] in
      let bindables :=
        if bindable_flag type then _bindableTypes svc ++ [type]
        else _bindableTypes svc in
      (Normal tt,
       {| _registeredTypes := registered; _bindableTypes := bindables |},
       config_type (name type) (definition_of type injector) router)
  | Throw e => (Throw e, svc, router)
  | Foreign => (Foreign, svc, router)
  end.

(** A sequence of [registerType] calls on one service, each call's
    exception caught by its caller. *)
Fixpoint register_each (types : list UrlType) (router : UIRouter) (injector : Injector)
    (svc : UrlTypeFactoryService) : UrlTypeFactoryService * UIRouter :=
  match types with
  | [] => (svc, router)
  | type :: rest =>
      let '(_, svc', router') := registerType type router injector svc in
      register_each rest router' injector svc'
  end.

(** The loop of [configure] (url-type-factory.ts, lines 21-23): the first
    exception leaves the loop. *)
Fixpoint configure_types (types : list UrlType) (router : UIRouter) (injector : Injector)
    (svc : UrlTypeFactoryService)
    : Completion unit * UrlTypeFactoryService * UIRouter :=
  match types with
  | [] => (Normal tt, svc, router)
  | type :: rest =>
      match registerType type router injector svc with
      | (Normal _, svc', router') => configure_types rest router' injector svc'
      | failed => failed
      end
  end.

(** ** States and their typed parameters, lines 175-203 *)

(** A [Param] of the host router: [p.id] and [p.type.name]. *)
Record Param := {
  param_id : string;
  param_type_name : string
}.

(** A state on a path: [pathState.params], when defined, is an object from
    parameter names to [Param]s; the list is in [Object.keys] order. *)
Record PathState := { params : option (list (string * Param)) }.

(** [StateObject]: the service reads nothing but [state.path]. *)
Record StateObject := { path : list PathState }.

Definition getTypeParamsFromStateObject (svc : UrlTypeFactoryService)
    (state : StateObject) (bindableOnly : bool) : list Param :=
  fold_left
    (fun foundParams pathState =>
       let params := default [] (params pathState) in
       fold_left
         (fun foundParams (entry : string * Param) =>
            let param := snd entry in
            match getTypeByName svc (param_type_name param) bindableOnly with
            | Some _ => foundParams ++ [param]
            | None => foundParams
            end)
         params foundParams)
    (path state) [].

Definition getTypeIdsFromStateObject (svc : UrlTypeFactoryService)
    (state : StateObject) (bindableOnly : bool) : list string :=
  map param_id (getTypeParamsFromStateObject svc state bindableOnly).

(** ** Transitions *)

(** A node of [transition.treeChanges()['to']] with its own parameter
    values; two nodes never share one [paramValues] object. *)
Record PathNode := { paramValues : option (gmap string JsVal) }.

(** The argument of [addResolvable]: [deps] is always [[Transition]] and
    [resolveFn] is [(t) => t.params()[token]]. *)
Record Resolvable := { token : string }.

Record Transition := {
  params_to : gmap string JsVal;      (* transition.params('to') *)
  targetState : StateObject;          (* transition.targetState().$state() *)
  treeChanges_to : list PathNode;     (* transition.treeChanges()['to'] *)
  resolvables : list Resolvable       (* what addResolvable has added *)
}.

Definition addResolvable (r : Resolvable) (t : Transition) : Transition :=
  {| params_to := params_to t;
     targetState := targetState t;
     treeChanges_to := treeChanges_to t;
     resolvables := resolvables t ++ [r] |}.

(** A call of a descriptor's [resolve]: the type's name and the matched
    value. The service's effect on the outside world is the list of these. *)
Definition ResolveCall : Type := string * JsVal.

(** [f()] for the functions of the model. *)
Definition call (svc : UrlTypeFactoryService) (f : JsVal) (calls : list ResolveCall)
    : Completion JsVal * list ResolveCall :=
  match f with
  | JFun _ (KReturn repr) => (Normal repr, calls)
  | JFun _ (KResolve type_name repr injector) =>
      match getTypeByName svc type_name false with
      | Some type => (Normal (resolve type repr injector), calls ++ [(type_name, repr)])
      | None => (Foreign, calls)
      end
  | JFun _ _ => (Foreign, calls)
  | _ => (Throw TypeError, calls)
  end.

(** The condition of lines 96-98:
    [!p || !p['then'] || typeof p['then'] !== 'function']. *)
Definition not_a_promise (p : JsVal) : Completion bool :=
  if negb (truthy p) then Normal true
  else
    p_then ← get p "then";
    Normal (negb (truthy p_then) || negb (typeof p_then =? "function")).

(** The [then] method of an object, if it has one that is a function. *)
Definition then_of (v : JsVal) : option Closure :=
  match v with
  | JObj _ props =>
      match props !! "then" with
      | Some (JFun _ k) => Some k
      | _ => None
      end
  | _ => None
  end.

(** What a thenable whose [then] passes the settlement [o] to its
    callbacks makes of a promise that follows it: the promise settles as
    [o], unless the value passed on is itself a thenable, which would be
    followed in turn by code that is not given. *)
Definition passed_on (o : Outcome JsVal) : Completion (Outcome JsVal) :=
  match o with
  | Fulfills passed =>
      settled ← not_a_promise passed;
      if settled : bool then Normal o else Foreign
  | _ => Normal o
  end.

(** [p.then(...).catch(...)], lines 110-129, on a [p] that has a callable
    [then]: how the promise the reactions hang on settles. A promise, and a
    thenable whose [then] returns a promise, settle as [p] does; when [then]
    returns [undefined] the read of [catch] throws. *)
Definition settlement (p : JsVal) : Completion (Outcome JsVal) :=
  match p with
  | JPromise _ o => Normal o
  | _ =>
      match then_of p with
      | Some (KThen o true) => passed_on o
      | Some (KThen _ false) => Throw TypeError
      | _ => Foreign
      end
  end.

(** [Promise.resolve(v)]: a promise is returned as it is; a thenable is
    adopted, the new promise settling as the thenable's [then] tells its
    callbacks; anything else fulfils the new promise. *)
Definition Promise_resolve (v : JsVal) : Completion (Outcome JsVal) :=
  match v with
  | JPromise _ o => Normal o
  | _ =>
      plain ← not_a_promise v;
      if plain : bool then Normal (Fulfills v)
      else
        match then_of v with
        | Some (KThen o _) => passed_on o
        | _ => Foreign
        end
  end.

(** Lines 90-103: from the resolver's result to the promise that is
    waited for. *)
Definition targetParamPromise (targetParamResolved : JsVal)
    : Completion (Outcome JsVal) :=
  p ← (if truthy targetParamResolved then get targetParamResolved "$promise"
       else Normal targetParamResolved);
  plain ← not_a_promise p;
  if plain : bool then Promise_resolve targetParamResolved
  else settlement p.

(** One element of [targetPromises]: the promise of a parameter, before
    the reactions of lines 110-129 have run. *)
Record Task := {
  targetParamId : string;
  awaited : Outcome JsVal
}.

Record Launched := {
  targetPromises : list Task;
  transition : Transition;
  resolveCalls : list ResolveCall
}.

(** The [resolve] calls made so far, recorded in the state of the loop. *)
Definition with_calls (calls : list ResolveCall) (st : Launched) : Launched :=
  {| targetPromises := targetPromises st;
     transition := transition st;
     resolveCalls := calls |}.

(** The body of the loop of lines 87-147, up to the reactions. *)
Definition launch (svc : UrlTypeFactoryService) (targetParams : gmap string JsVal)
    (targetParamBindableIds : list string) (targetParamId : string)
    (st : Launched) : Completion unit * Launched :=
  let targetParamValue := default JUndefined (targetParams !! targetParamId) in
  match get targetParamValue RSLV_TOKEN with
  | Normal rslv =>
      match call svc rslv (resolveCalls st) with
      | (Normal targetParamResolved, calls) =>
          match targetParamPromise targetParamResolved with
          | Normal promise =>
              let task := {| targetParamId := targetParamId; awaited := promise |} in
              let t :=
                if bool_decide (targetParamId ∈ targetParamBindableIds)
                then addResolvable {| token := targetParamId |} (transition st)
                else transition st in
              (Normal tt,
               {| targetPromises := targetPromises st ++ [task];
                  transition := t;
                  resolveCalls := calls |})
          | Throw e => (Throw e, with_calls calls st)
          | Foreign => (Foreign, with_calls calls st)
          end
      | (Throw e, calls) => (Throw e, with_calls calls st)
      | (Foreign, calls) => (Foreign, with_calls calls st)
      end
  | Throw e => (Throw e, st)
  | Foreign => (Foreign, st)
  end.

Fixpoint launch_each (svc : UrlTypeFactoryService) (targetParams : gmap string JsVal)
    (targetParamBindableIds : list string) (targetParamIds : list string)
    (st : Launched) : Completion unit * Launched :=
  match targetParamIds with
  | [] => (Normal tt, st)
  | targetParamId :: rest =>
      match launch svc targetParams targetParamBindableIds targetParamId st with
      | (Normal _, st') => launch_each svc targetParams targetParamBindableIds rest st'
      | failed => failed
      end
  end.

(** [doTransition], lines 81-150, up to the point where it returns
    [Promise.all(targetPromises)]: the promises it has collected, the
    transition with the resolvables it has added, and the [resolve] calls
    made so far. *)
Definition doTransition (svc : UrlTypeFactoryService) (t : Transition)
    (calls : list ResolveCall) : Completion unit * Launched :=
  let targetParams := params_to t in
  let targetParamIds := getTypeIdsFromStateObject svc (targetState t) false in
  let targetParamBindableIds := getTypeIdsFromStateObject svc (targetState t) true in
  launch_each svc targetParams targetParamBindableIds targetParamIds
    {| targetPromises := []; transition := t; resolveCalls := calls |}.

(** ** The hook installed by [configure], url-type-factory.ts lines 28-37 *)

(** The criterion [to] of the hook:
    [service.getTypeParamsFromStateObject(state, false).length !== 0]. *)
Definition onStart_to (svc : UrlTypeFactoryService) (state : StateObject) : bool :=
  negb (length (getTypeParamsFromStateObject svc state false) =? 0)%nat.

(** The hook on a transition that starts: the host router runs the callback,
    [service.doTransition(transition)], when the criterion accepts the
    target state, and lets the transition go on (no result) otherwise. *)
Definition onStart (svc : UrlTypeFactoryService) (t : Transition)
    (calls : list ResolveCall) : option (Completion unit * Launched) :=
  if onStart_to svc (targetState t) then Some (doTransition svc t calls)
  else None.

(** ** The reactions and [Promise.all] *)

(** The [then] callback, lines 111-123, on one node. *)
Definition write_back (targetParamId : string) (resolved : JsVal) (nodeParams : PathNode)
    : PathNode :=
  match paramValues nodeParams with
  | Some nodeParamValues =>
      if bool_decide (is_Some (nodeParamValues !! targetParamId))
      then {| paramValues := Some (<[targetParamId := resolved]> nodeParamValues) |}
      else nodeParams
  | None => nodeParams
  end.

(** The state of a [targetParamPromise] after [.then(...).catch(...)]. *)
Inductive Reaction :=
| Waiting
| Resolved (resolved : JsVal)
| Failed (error : Exn).

(** The state of [Promise.all(targetPromises)]. *)
Inductive Aggregate :=
| AllPending
| AllFulfilled (values : list JsVal)
| AllRejected (error : Exn).

Record Settling := {
  treeParams : list PathNode;       (* the nodes of treeChanges()['to'] *)
  reactions : list Reaction;        (* one per element of targetPromises *)
  rejection : option Exn            (* the first rejection seen by Promise.all *)
}.

Definition resolved_value (r : Reaction) : option JsVal :=
  match r with
  | Resolved v => Some v
  | _ => None
  end.

Definition aggregate (st : Settling) : Aggregate :=
  match rejection st with
  | Some error => AllRejected error
  | None =>
      match mapM resolved_value (reactions st) with
      | Some values => AllFulfilled values
      | None => AllPending
      end
  end.

Section Reactions.

(** [String(error)], as the template literal of line 126 computes it. *)
Variable ToString : JsVal -> string.

Definition resolve_message (targetParamId : string) (error : JsVal) : string :=
  "The URL parameter '" +:+ targetParamId +:+ "' rejected. The error was:" +:+
  newline +:+ spaces 24 +:+ ToString error +:+ ".".

(** The [i]-th promise settles and its reactions run. A promise settles
    once: a later event for the same promise changes nothing. *)
Definition react (tasks : list Task) (i : nat) (st : Settling) : Settling :=
  match tasks !! i, reactions st !! i with
  | Some task, Some Waiting =>
      match awaited task with
      | Fulfills resolved =>
          {| treeParams := map (write_back (targetParamId task) resolved) (treeParams st);
             reactions := <[i := Resolved resolved]> (reactions st);
             rejection := rejection st |}
      | Rejects error =>
          let e := UrlTypeFactoryResolveError
                     (resolve_message (targetParamId task) error) in
          {| treeParams := treeParams st;
             reactions := <[i := Failed e]> (reactions st);
             rejection := match rejection st with
                          | Some first => Some first
                          | None => Some e
                          end |}
      | NeverSettles => st
      end
  | _, _ => st
  end.

(** The promises settle in the order [schedule] (indices into
    [targetPromises]); the service fixes no order. *)
Definition settle (tasks : list Task) (schedule : list nat) (tree : list PathNode)
    : Settling :=
  fold_left (fun st i => react tasks i st) schedule
    {| treeParams := tree;
       reactions := replicate (length tasks) Waiting;
       rejection := None |}.

End Reactions.

(** ** The descriptors of the test suite (url-type-factory.service.spec.ts) *)

Module Examples.

(** [String(v)] on the values the tests convert; the source text of a
    function is not modelled. *)
Definition String_ (v : JsVal) : string :=
  match v with
  | JUndefined => "undefined"
  | JNull => "null"
  | JBool true => "true"
  | JBool false => "false"
  | JNum n => pretty n
  | JNaN => "NaN"
  | JStr s => s
  | JObj _ _ => "[object Object]"
  | JFun _ _ => "function"
  | JPromise _ _ => "[object Promise]"
  end.

(** [String(obj.pk)] *)
Definition represent_pk (obj : JsVal) : string :=
  match get obj "pk" with
  | Normal pk => String_ pk
  | _ => "undefined"
  end.

Definition resolved_object (a : addr) (attr1 attr2 : string) : JsVal :=
  JObj a (<["pk" := JNum 1]> (<["attr1" := JStr attr1]> (<["attr2" := JStr attr2]> ∅))).

Definition SyncTestType : UrlType :=
  {| name := "SyncTest";
     match_ := {| source := "\d+" |};
     represent := represent_pk;
     resolve := λ _ _, resolved_object 100 "sync-value1" "sync-value2";
     bindable := Some true |}.

Definition AsyncTestType : UrlType :=
  {| name := "AsyncTest";
     match_ := {| source := "\d+" |};
     represent := represent_pk;
     resolve := λ _ _,
       JPromise 101 (Fulfills (resolved_object 102 "async-value1" "async-value2"));
     bindable := Some true |}.

(** A second descriptor that takes the name of [SyncTestType]. *)
Definition SyncTestAgain : UrlType :=
  {| name := "SyncTest";
     match_ := {| source := "[a-z]+" |};
     represent := λ _, "again";
     resolve := λ repr _, repr;
     bindable := None |}.

(** A descriptor whose [resolve] returns a promise that rejects. *)
Definition FailingType : UrlType :=
  {| name := "Failing";
     match_ := {| source := "\d+" |};
     represent := represent_pk;
     resolve := λ _ _, JPromise 103 (Rejects (JStr "not found"));
     bindable := Some false |}.


(** A descriptor whose pattern also matches the empty segment. *)
Definition AnyTestType : UrlType :=
  {| name := "AnyTest";
     match_ := {| source := ".*" |};
     represent := represent_pk;
     resolve := λ repr _, repr;
     bindable := Some false |}.

Definition router0 : UIRouter := {| paramTypes := [] |}.
Definition injector0 : Injector := NgInjector 0.

(** The service after [configure] has registered the three types. *)
Definition service0 : UrlTypeFactoryService :=
  (register_each [SyncTestType; AsyncTestType; FailingType] router0 injector0 new_service).1.

(** The state ['sync-async'] with url
    ['/sync-async/{param1:SyncTest}/{param2:AsyncTest}'], below the root
    state, and a transition to it with both parameters given as [1]. *)
Definition sync_async : StateObject :=
  {| path :=
       [ {| params := Some [] |};
         {| params := Some [("param1", {| param_id := "param1"; param_type_name := "SyncTest" |});
                            ("param2", {| param_id := "param2";
                                          param_type_name := "AsyncTest" |})] |} ] |}.

Definition decoded1 : JsVal := (Codec.decode SyncTestType injector0 (JNum 1) 0).1.
Definition decoded2 : JsVal := (Codec.decode AsyncTestType injector0 (JNum 1) 2).1.

Definition go_sync_async : Transition :=
  {| params_to := <["param1" := decoded1]> (<["param2" := decoded2]> ∅);
     targetState := sync_async;
     treeChanges_to :=
       [ {| paramValues := Some ∅ |};
         {| paramValues := Some (<["param1" := decoded1]> (<["param2" := decoded2]> ∅)) |} ];
     resolvables := [] |}.




(** A state without typed parameters, and a transition to it. *)
Definition plain : StateObject :=
  {| path :=
       [ {| params := Some [] |};
         {| params := Some [("q", {| param_id := "q"; param_type_name := "string" |})] |};
         {| params := None |} ] |}.

Definition go_plain : Transition :=
  {| params_to := <["q" := JStr "x"]> ∅;
     targetState := plain;
     treeChanges_to :=
       [ {| paramValues := Some ∅ |};
         {| paramValues := Some (<["q" := JStr "x"]> ∅) |};
         {| paramValues := None |} ];
     resolvables := [] |}.

(** [sync_async] entered with two objects that are already resolved. *)
Definition object1 : JsVal := JObj 50 (<["pk" := JNum 1]> ∅).
Definition object2 : JsVal := JObj 51 (<["pk" := JNum 2]> ∅).
Definition carrier1 : JsVal := (Codec.decode SyncTestType injector0 object1 0).1.
Definition carrier2 : JsVal := (Codec.decode AsyncTestType injector0 object2 2).1.

Definition go_with_objects : Transition :=
  {| params_to := <["param1" := carrier1]> (<["param2" := carrier2]> ∅);
     targetState := sync_async;
     treeChanges_to :=
       [ {| paramValues := Some ∅ |};
         {| paramValues := Some (<["param1" := carrier1]> (<["param2" := carrier2]> ∅)) |} ];
     resolvables := [] |}.

(** [sync_async] entered without a value for [param2]. *)
Definition go_without_param2 : Transition :=
  {| params_to := <["param1" := decoded1]> ∅;
     targetState := sync_async;
     treeChanges_to := [ {| paramValues := Some (<["param1" := decoded1]> ∅) |} ];
     resolvables := [] |}.

End Examples.

(** * The vocabulary of the properties *)

(** ** The registry *)

(** What a sequence of registrations should leave in the registry: the
    first descriptor of every name, in the order of the calls. [seen] are
    the names taken before the sequence starts. *)
Fixpoint first_of_each_name (seen : list string) (calls : list UrlType) : list UrlType :=
  match calls with
  | [] => []
  | type :: rest =>
      if bool_decide (name type ∈ seen) then first_of_each_name seen rest
      else type :: first_of_each_name (name type :: seen) rest
  end.

(** ** The codec *)

(** A non-null object, as [repr && typeof repr === 'object'] tests it. *)
Definition non_null_object (v : JsVal) : Prop :=
  match v with
  | JObj _ _ | JPromise _ _ => True
  | _ => False
  end.

(** An object that has the representation marker among its own properties. *)
Definition carries_marker (v : JsVal) : Prop :=
  match v with
  | JObj _ props => is_Some (props !! REPR_TOKEN)
  | _ => False
  end.

(** Two characters that are equal, or the two cases of one ASCII letter. *)
Definition same_letter (c1 c2 : ascii) : Prop :=
  c1 = c2 ∨
  ((65 ≤ nat_of_ascii c1 ≤ 90)%nat ∧ nat_of_ascii c2 = (nat_of_ascii c1 + 32)%nat) ∨
  ((65 ≤ nat_of_ascii c2 ≤ 90)%nat ∧ nat_of_ascii c1 = (nat_of_ascii c2 + 32)%nat).

(** Two strings that are equal when case is ignored: the engine's case
    mapping sends them to one upper-case string. *)
Definition equal_up_to_case (toUpperCase : string → string) (s1 s2 : string) : Prop :=
  toUpperCase s1 = toUpperCase s2.

(** On strings of ASCII characters: equal letter by letter, up to the case
    of the letters. *)
Inductive equal_ignoring_case : string → string → Prop :=
| eic_empty : equal_ignoring_case "" ""
| eic_letter c1 c2 s1 s2 :
    same_letter c1 c2 → equal_ignoring_case s1 s2 →
    equal_ignoring_case (String c1 s1) (String c2 s2).

(** ** Typed parameters of a state *)

(** The parameters declared along the path of a state, in path order and,
    within a path state, in [Object.keys] order. *)
Definition declared_params (state : StateObject) : list Param :=
  concat (map (λ pathState, map snd (default [] (params pathState))) (path state)).

(** The names registered in the requested subset. *)
Definition subset_names (svc : UrlTypeFactoryService) (bindableOnly : bool) : list string :=
  map name (if bindableOnly then _bindableTypes svc else _registeredTypes svc).

(** ** The transition resolver *)

(** The value a node holds for a parameter id, if its own parameter values
    contain the id. *)
Definition holds (node : PathNode) (key : string) : option JsVal :=
  match paramValues node with
  | Some nodeParamValues => nodeParamValues !! key
  | None => None
  end.

(** [r && r['$promise']], line 90. *)
Definition promise_field (targetParamResolved : JsVal) : JsVal :=
  if truthy targetParamResolved then
    match get targetParamResolved "$promise" with
    | Normal p => p
    | _ => JUndefined
    end
  else targetParamResolved.

(** A value that exposes a callable [then]. *)
Definition thenable (p : JsVal) : Prop := not_a_promise p = Normal false.





(** What a reaction may be, given the promise it reacts to. *)
Definition reaction_of (ToString : JsVal → string) (task : Task) (r : Reaction) : Prop :=
  match r with
  | Waiting => True
  | Resolved resolved => awaited task = Fulfills resolved
  | Failed error =>
      ∃ cause, awaited task = Rejects cause ∧
        error = UrlTypeFactoryResolveError
                  (resolve_message ToString (targetParamId task) cause)
  end.



Definition run (ToString : JsVal → string) (tasks : list Task)
    (schedule : list nat) (st : Settling) : Settling :=
  fold_left (fun st i => react ToString tasks i st) schedule st.

Definition start (tasks : list Task) (tree : list PathNode) : Settling :=
  {| treeParams := tree;
     reactions := replicate (length tasks) Waiting;
     rejection := None |}.

(** Every reaction agrees with the promise it belongs to. *)
Definition consistent (ToString : JsVal → string) (tasks : list Task)
    (st : Settling) : Prop :=
  Forall2 (reaction_of ToString) tasks (reactions st).

(** For a parameter id: either no reaction for it has run, or every node
    that contains the id holds one and the same value, the one some
    promise of that id was fulfilled with. *)
Definition written (tasks : list Task) (st : Settling) (key : string) : Prop :=
  (∀ i task resolved, tasks !! i = Some task → targetParamId task = key →
     reactions st !! i ≠ Some (Resolved resolved)) ∨
  (∃ i task resolved,
     tasks !! i = Some task ∧ targetParamId task = key ∧
     awaited task = Fulfills resolved ∧
     ∀ node, node ∈ treeParams st → is_Some (holds node key) →
             holds node key = Some resolved).


(** ** Further vocabulary *)

(** The marker [decode] stores for [raw]. *)
Definition marker_of (type : UrlType) (raw : JsVal) : JsVal :=
  match raw with
  | JObj _ _ | JPromise _ _ => JStr (represent type raw)
  | _ => raw
  end.

(** What the resolver closure of [decode(raw)] returns when invoked. *)
Definition resolver_result (type : UrlType) (injector : Injector) (raw : JsVal) : JsVal :=
  match raw with
  | JObj _ _ | JPromise _ _ => raw
  | _ => resolve type raw injector
  end.

(** The [resolve] call the resolver closure of [decode(raw)] makes. *)
Definition resolver_calls (type : UrlType) (raw : JsVal) : list ResolveCall :=
  match raw with
  | JObj _ _ | JPromise _ _ => []
  | _ => [(name type, raw)]
  end.

(** The entry [registerType] adds to the router's table for a type. *)
Definition table_entry (injector : Injector) (type : UrlType)
    : string * ParamTypeDefinition :=
  (name type, definition_of type injector).

(** Two states of the reactions that differ at most in the rejection that
    [Promise.all] has seen first. *)
Definition same_nodes_and_reactions (st st' : Settling) : Prop :=
  treeParams st = treeParams st' ∧ reactions st = reactions st'.

(** * Properties *)

(** ** The registry *)

Lemma find_by_name_Some type_name types type :
  find_by_name type_name types = Some type → type ∈ types ∧ name type = type_name.
Proof.
  induction types as [|t rest IH]; simpl; [done|].
  destruct (name t =? type_name) eqn:E.
  - intros [= <-]. apply String.eqb_eq in E. split; [left | done].
  - intros H. destruct (IH H) as [Hin Hn]. split; [by right | done].
Qed.

Lemma find_by_name_None type_name types :
  find_by_name type_name types = None ↔ type_name ∉ map name types.
Proof.
  induction types as [|t rest IH]; simpl.
  - split; [intros _; apply not_elem_of_nil | done].
  - rewrite not_elem_of_cons. destruct (name t =? type_name) eqn:E.
    + apply String.eqb_eq in E. split; [done | intros [Hne _]; congruence].
    + apply String.eqb_neq in E. rewrite IH. split; [intros H; split; congruence | tauto].
Qed.

Lemma find_by_name_app type_name l1 l2 :
  find_by_name type_name (l1 ++ l2) =
  match find_by_name type_name l1 with
  | Some type => Some type
  | None => find_by_name type_name l2
  end.
Proof.
  induction l1 as [|t rest IH]; simpl; [done|].
  by destruct (name t =? type_name).
Qed.

(** The loop of lines 215-222 throws exactly when the name is taken. *)
Lemma assert_not_registered_find type registered :
  assert_not_registered type registered =
  match find_by_name (name type) registered with
  | Some _ => Throw (UrlTypeFactoryRegistrationError (registration_message (name type)))
  | None => Normal tt
  end.
Proof.
  induction registered as [|r rest IH]; simpl; [done|].
  rewrite String.eqb_sym. destruct (name r =? name type) eqn:E; [|done].
  apply String.eqb_eq in E. by rewrite E.
Qed.

Lemma registerType_taken type router injector svc registered :
  registered ∈ _registeredTypes svc → name registered = name type →
  registerType type router injector svc =
    (Throw (UrlTypeFactoryRegistrationError (registration_message (name type))),
     svc, router).
Proof.
  intros Hin Hname. unfold registerType. rewrite assert_not_registered_find.
  destruct (find_by_name (name type) (_registeredTypes svc)) eqn:E; [done|].
  apply find_by_name_None in E. exfalso. apply E.
  rewrite <- Hname. apply list_elem_of_fmap. by exists registered.
Qed.

Lemma registerType_fresh type router injector svc :
  name type ∉ map name (_registeredTypes svc) →
  registerType type router injector svc =
    (Normal tt,
     {| _registeredTypes := _registeredTypes svc ++ [type];
        _bindableTypes :=
          _bindableTypes svc ++ (if bindable_flag type then [type] else []) |},
     config_type (name type) (definition_of type injector) router).
Proof.
  intros Hfresh. unfold registerType. rewrite assert_not_registered_find.
  apply find_by_name_None in Hfresh. rewrite Hfresh.
  destruct (bindable_flag type); [done|]. by rewrite app_nil_r.
Qed.

(** Only the set of names seen matters. *)
Lemma first_of_each_name_ext seen1 seen2 calls :
  (∀ n, n ∈ seen1 ↔ n ∈ seen2) →
  first_of_each_name seen1 calls = first_of_each_name seen2 calls.
Proof.
  revert seen1 seen2. induction calls as [|type rest IH]; intros seen1 seen2 Hseen; simpl; [done|].
  pose proof (Hseen (name type)) as Hiff.
  do 2 case_bool_decide; try tauto; [by apply IH |].
  f_equal. apply IH. intros n. rewrite !elem_of_cons, Hseen. done.
Qed.

Lemma register_each_registered calls router injector svc :
  _registeredTypes (register_each calls router injector svc).1 =
  _registeredTypes svc ++ first_of_each_name (map name (_registeredTypes svc)) calls.
Proof.
  revert router svc. induction calls as [|type rest IH]; intros router svc; simpl.
  - by rewrite app_nil_r.
  - case_bool_decide as Hseen.
    + apply list_elem_of_fmap in Hseen as (r & Hname & Hin).
      rewrite (registerType_taken type router injector svc r); [apply IH | done..].
    + rewrite registerType_fresh; [|done]. rewrite IH. simpl.
      rewrite <- app_assoc. simpl. do 2 f_equal.
      apply first_of_each_name_ext. intros n.
      rewrite map_app. simpl. set_solver.
Qed.

Lemma register_each_bindable calls router injector svc :
  _bindableTypes svc = filter (λ type, bindable_flag type = true) (_registeredTypes svc) →
  let svc' := (register_each calls router injector svc).1 in
  _bindableTypes svc' = filter (λ type, bindable_flag type = true) (_registeredTypes svc').
Proof.
  revert router svc. induction calls as [|type rest IH]; intros router svc Hinv; simpl; [done|].
  destruct (decide (name type ∈ map name (_registeredTypes svc))) as [Hseen|Hfresh].
  - apply list_elem_of_fmap in Hseen as (r & Hname & Hin).
    rewrite (registerType_taken type router injector svc r); [by apply IH | done..].
  - rewrite registerType_fresh; [|done]. apply IH. simpl.
    rewrite filter_app, Hinv. f_equal.
    destruct (bindable_flag type) eqn:E.
    + by rewrite filter_cons_True.
    + rewrite filter_cons_False; [done | congruence].
Qed.

Lemma first_of_each_name_NoDup seen calls :
  NoDup (map name (first_of_each_name seen calls)) ∧
  ∀ type, type ∈ first_of_each_name seen calls → name type ∉ seen.
Proof.
  revert seen. induction calls as [|type rest IH]; intros seen; simpl.
  - split; [constructor | intros ? H; by apply elem_of_nil in H].
  - case_bool_decide as Hseen; [apply IH|].
    destruct (IH (name type :: seen)) as [Hnd Hout]. split.
    + simpl. constructor; [|done]. intros Hin.
      apply list_elem_of_fmap in Hin as (t & Hn & Hin).
      apply Hout in Hin. rewrite Hn in Hin. set_solver.
    + intros t [->|Hin]%elem_of_cons; [done|]. apply Hout in Hin. set_solver.
Qed.

Lemma find_by_name_first_of_each_name type_name calls :
  find_by_name type_name (first_of_each_name [] calls) = find_by_name type_name calls.
Proof.
  assert (∀ seen, type_name ∉ seen →
    find_by_name type_name (first_of_each_name seen calls) = find_by_name type_name calls) as H.
  { induction calls as [|type rest IH]; intros seen Hout; simpl; [done|].
    case_bool_decide as Hseen.
    - destruct (name type =? type_name) eqn:E.
      + apply String.eqb_eq in E. congruence.
      + by apply IH.
    - simpl. destruct (name type =? type_name) eqn:E; [done|].
      apply IH. apply String.eqb_neq in E. set_solver. }
  apply H, not_elem_of_nil.
Qed.

(** When the loop of [configure] runs to its end, it has made the calls one
    after the other, none of which threw. *)
Lemma configure_types_Normal types router injector svc svc' router' :
  configure_types types router injector svc = (Normal tt, svc', router') →
  register_each types router injector svc = (svc', router').
Proof.
  revert router svc. induction types as [|type rest IH]; intros router svc; simpl.
  - by intros [= <- <-].
  - destruct (registerType type router injector svc) as [[[[]| |] mid] r]; try done.
    apply IH.
Qed.

(** C1. Whatever [registerType] calls have been made on a service, its
    registered set holds the first descriptor of every name, in call order,
    and its bindable subset the bindable ones among them. One more call
    under a name that is taken throws a [UrlTypeFactoryRegistrationError]
    and leaves both lists (and the router) as they were; one more call
    under a fresh name returns, appends the descriptor to the registered
    set and, exactly when its [bindable] flag is true, to the bindable
    subset. *)
Theorem registerType_duplicate_rejected_fresh_appended :
  ∀ (calls : list UrlType) (router : UIRouter) (injector : Injector) (type : UrlType),
    let svc := (register_each calls router injector new_service).1 in
    let router' := (register_each calls router injector new_service).2 in
    _registeredTypes svc = first_of_each_name [] calls ∧
    _bindableTypes svc =
      filter (λ t, bindable t = Some true) (first_of_each_name [] calls) ∧
    (∀ type_name, getTypeByName svc type_name false = find_by_name type_name calls) ∧
    (∀ registered, registered ∈ _registeredTypes svc → name registered = name type →
       registerType type router' injector svc =
         (Throw (UrlTypeFactoryRegistrationError (registration_message (name type))),
          svc, router')) ∧
    (name type ∉ map name (_registeredTypes svc) →
       registerType type router' injector svc =
         (Normal tt,
          {| _registeredTypes := _registeredTypes svc ++ [type];
             _bindableTypes :=
               _bindableTypes svc ++
               (if bool_decide (bindable type = Some true) then [type] else []) |},
          config_type (name type) (definition_of type injector) router')).
Proof.
  intros calls router injector type svc router'.
  assert (_registeredTypes svc = first_of_each_name [] calls) as Hreg.
  { unfold svc. by rewrite register_each_registered. }
  assert (∀ t, bindable_flag t = true ↔ bindable t = Some true) as Hflag.
  { intros t. unfold bindable_flag. destruct (bindable t) as [[]|]; naive_solver. }
  split_and!.
  - done.
  - unfold svc at 1. rewrite register_each_bindable; [|done]. fold svc. rewrite Hreg.
    apply list_filter_iff. intros t. apply Hflag.
  - intros type_name. unfold getTypeByName. rewrite Hreg.
    apply find_by_name_first_of_each_name.
  - intros registered Hin Hname. by eapply registerType_taken.
  - intros Hfresh. rewrite registerType_fresh; [|done]. do 3 f_equal.
    case_bool_decide as Hb.
    + apply Hflag in Hb. by rewrite Hb.
    + destruct (bindable_flag type) eqn:E; [|done]. by apply Hflag in E.
Qed.

Lemma registerType_duplicate_rejected_fresh_appended_witness :
  registerType Examples.SyncTestAgain
    (register_each [Examples.SyncTestType] Examples.router0 Examples.injector0 new_service).2
    Examples.injector0
    (register_each [Examples.SyncTestType] Examples.router0 Examples.injector0 new_service).1
  = (Throw (UrlTypeFactoryRegistrationError (registration_message "SyncTest")),
     (register_each [Examples.SyncTestType] Examples.router0 Examples.injector0 new_service).1,
     (register_each [Examples.SyncTestType] Examples.router0 Examples.injector0 new_service).2)
  ∧
  (_registeredTypes
     (registerType Examples.AsyncTestType
        (register_each [Examples.SyncTestType] Examples.router0 Examples.injector0 new_service).2
        Examples.injector0
        (register_each [Examples.SyncTestType] Examples.router0 Examples.injector0 new_service).1).1.2
   = [Examples.SyncTestType; Examples.AsyncTestType]).
Proof.
  destruct (registerType_duplicate_rejected_fresh_appended
              [Examples.SyncTestType] Examples.router0 Examples.injector0
              Examples.SyncTestAgain) as (_ & _ & _ & Htaken & _).
  destruct (registerType_duplicate_rejected_fresh_appended
              [Examples.SyncTestType] Examples.router0 Examples.injector0
              Examples.AsyncTestType) as (_ & _ & _ & _ & Hfresh).
  split.
  - apply (Htaken Examples.SyncTestType); [left | reflexivity].
  - rewrite Hfresh; [reflexivity|].
    simpl. intros [H|H]%elem_of_cons; [discriminate H | by apply elem_of_nil in H].
Defined.

(** ** The codec *)

Lemma truthy_object_iff v :
  truthy v && (typeof v =? "object") = true ↔ non_null_object v.
Proof.
  destruct v as [| |b|n| |s|a props|a k|a o]; simpl;
    rewrite ?andb_false_r, ?andb_true_r; try (split; [discriminate | tauto]);
    try tauto.
Qed.

Lemma truthy_object_false v :
  truthy v && (typeof v =? "object") = false ↔ ¬ non_null_object v.
Proof.
  rewrite <- truthy_object_iff. destruct (truthy v && (typeof v =? "object")); naive_solver.
Qed.

Lemma hasOwnProperty_carries v :
  truthy v && (typeof v =? "object") && hasOwnProperty v REPR_TOKEN = true ↔ carries_marker v.
Proof.
  destruct v as [| |b|n| |s|a props|a k|a o]; simpl;
    rewrite ?andb_false_r, ?andb_false_l; try (split; [discriminate | tauto]).
  rewrite bool_decide_eq_true. done.
Qed.

Lemma nat_of_ascii_toUpperCase c :
  nat_of_ascii (ascii_toUpperCase c) =
  if (97 <=? nat_of_ascii c)%nat && (nat_of_ascii c <=? 122)%nat
  then nat_of_ascii c - 32 else nat_of_ascii c.
Proof.
  unfold ascii_toUpperCase.
  destruct ((97 <=? nat_of_ascii c)%nat && (nat_of_ascii c <=? 122)%nat) eqn:E; [|done].
  apply nat_ascii_embedding. pose proof (nat_ascii_bounded c). lia.
Qed.

Lemma nat_of_ascii_inj c1 c2 : nat_of_ascii c1 = nat_of_ascii c2 → c1 = c2.
Proof.
  intros H. rewrite <- (ascii_nat_embedding c1), <- (ascii_nat_embedding c2). by rewrite H.
Qed.

Lemma ascii_toUpperCase_same_letter c1 c2 :
  ascii_toUpperCase c1 = ascii_toUpperCase c2 ↔ same_letter c1 c2.
Proof.
  unfold same_letter. split.
  - intros H. apply (f_equal nat_of_ascii) in H.
    rewrite !nat_of_ascii_toUpperCase in H.
    destruct (decide (nat_of_ascii c1 = nat_of_ascii c2)) as [Heq|Hne];
      [left; by apply nat_of_ascii_inj | right].
    destruct (Nat.leb_spec 97 (nat_of_ascii c1)), (Nat.leb_spec (nat_of_ascii c1) 122),
      (Nat.leb_spec 97 (nat_of_ascii c2)), (Nat.leb_spec (nat_of_ascii c2) 122);
      simpl in *; lia.
  - intros H. apply nat_of_ascii_inj. rewrite !nat_of_ascii_toUpperCase.
    destruct H as [->|H]; [done|].
    destruct (Nat.leb_spec 97 (nat_of_ascii c1)), (Nat.leb_spec (nat_of_ascii c1) 122),
      (Nat.leb_spec 97 (nat_of_ascii c2)), (Nat.leb_spec (nat_of_ascii c2) 122);
      simpl in *; lia.
Qed.

Lemma toUpperCase_equal_ignoring_case s1 s2 :
  toUpperCase_ASCII s1 = toUpperCase_ASCII s2 ↔ equal_ignoring_case s1 s2.
Proof.
  split.
  - revert s2. induction s1 as [|c1 s1 IH]; intros [|c2 s2]; simpl; try discriminate.
    + intros _. constructor.
    + intros [= Hc Hs]. constructor; [by apply ascii_toUpperCase_same_letter | by apply IH].
  - induction 1 as [|c1 c2 s1 s2 Hc _ IH]; simpl; [done|].
    apply ascii_toUpperCase_same_letter in Hc. by rewrite Hc, IH.
Qed.

Lemma strict_equals_sym a b : strict_equals a b = strict_equals b a.
Proof.
  destruct a as [| |x|x| |x|x ?|x ?|x ?], b as [| |y|y| |y|y ?|y ?|y ?]; simpl; try done;
    auto using Z.eqb_sym, String.eqb_sym, Nat.eqb_sym.
  by destruct x, y.
Qed.

Lemma find_by_name_elem types type :
  NoDup (map name types) → type ∈ types → find_by_name (name type) types = Some type.
Proof.
  induction types as [|t rest IH]; simpl; intros Hnd Hin; [by apply elem_of_nil in Hin|].
  apply NoDup_cons in Hnd as [Hout Hnd].
  apply elem_of_cons in Hin as [->|Hin]; [by rewrite String.eqb_refl|].
  destruct (name t =? name type) eqn:E; [|by apply IH].
  apply String.eqb_eq in E. exfalso. apply Hout. rewrite E.
  apply list_elem_of_fmap. by exists type.
Qed.

(** A type that has been registered is the one its name looks up. *)
Lemma registered_lookup calls router injector type :
  type ∈ _registeredTypes (register_each calls router injector new_service).1 →
  getTypeByName (register_each calls router injector new_service).1 (name type) false
    = Some type.
Proof.
  intros Hin. unfold getTypeByName. apply find_by_name_elem; [|done].
  rewrite register_each_registered. simpl. apply first_of_each_name_NoDup.
Qed.

(** The router holds one definition per registered type: its codec. *)
Lemma installed_definitions calls router injector svc :
  paramTypes (register_each calls router injector svc).2 =
  paramTypes router ++
  map (λ type, (name type, definition_of type injector))
      (first_of_each_name (map name (_registeredTypes svc)) calls).
Proof.
  revert router svc. induction calls as [|type rest IH]; intros router svc; simpl.
  - by rewrite app_nil_r.
  - case_bool_decide as Hseen.
    + apply list_elem_of_fmap in Hseen as (r & Hname & Hin).
      rewrite (registerType_taken type router injector svc r); [apply IH | done..].
    + rewrite registerType_fresh; [|done]. rewrite IH. simpl.
      rewrite <- app_assoc. simpl. do 3 f_equal.
      apply first_of_each_name_ext. intros n. rewrite map_app. simpl. set_solver.
Qed.

(** C2. For a registered type, the installed [decode] applied to a non-null
    object [raw] returns a carrier whose representation marker is
    [represent(raw)] and whose resolver closure returns [raw] without any
    call of [resolve]; applied to anything else (the matched string) it
    returns a carrier whose marker is [raw] itself and whose resolver
    closure, when invoked, makes one call [resolve(raw, injector)] and
    returns its result. *)
Theorem decode_object_or_matched_string :
  ∀ (registrations : list UrlType) (router : UIRouter) (injector : Injector)
    (type : UrlType) (raw : JsVal) (next : addr) (calls : list ResolveCall),
    let svc := (register_each registrations router injector new_service).1 in
    type ∈ _registeredTypes svc →
    let decoded := (pt_decode (definition_of type injector) raw next).1 in
    ∃ rslv,
      get decoded RSLV_TOKEN = Normal rslv ∧
      pt_is (definition_of type injector) decoded = true ∧
      (non_null_object raw →
         get decoded REPR_TOKEN = Normal (JStr (represent type raw)) ∧
         call svc rslv calls = (Normal raw, calls)) ∧
      (¬ non_null_object raw →
         get decoded REPR_TOKEN = Normal raw ∧
         call svc rslv calls =
           (Normal (resolve type raw injector), calls ++ [(name type, raw)])).
Proof.
  intros registrations router injector type raw next calls svc Hin decoded.
  subst decoded. simpl. unfold Codec.decode.
  destruct (truthy raw && (typeof raw =? "object")) eqn:E.
  - apply truthy_object_iff in E.
    exists (JFun (S next) (KReturn raw)). split_and!; [done | done | | tauto].
    intros _. done.
  - apply truthy_object_false in E.
    exists (JFun (S next) (KResolve (name type) raw injector)).
    split_and!; [done | done | tauto |].
    intros _. split; [done|]. simpl. unfold svc.
    by rewrite (registered_lookup registrations router injector type Hin).
Qed.

Lemma decode_object_or_matched_string_witness :
  ∃ rslv,
    get (Codec.decode Examples.SyncTestType Examples.injector0 (JStr "7") 0).1 RSLV_TOKEN
      = Normal rslv ∧
    get (Codec.decode Examples.SyncTestType Examples.injector0 (JStr "7") 0).1 REPR_TOKEN
      = Normal (JStr "7") ∧
    call Examples.service0 rslv [] =
      (Normal (Examples.resolved_object 100 "sync-value1" "sync-value2"),
       [("SyncTest", JStr "7")]).
Proof.
  destruct (decode_object_or_matched_string
              [Examples.SyncTestType; Examples.AsyncTestType; Examples.FailingType]
              Examples.router0 Examples.injector0 Examples.SyncTestType (JStr "7") 0 [])
    as (rslv & Hrslv & _ & _ & Hstring).
  - left.
  - exists rslv. destruct Hstring as [Hrepr Hcall]; [simpl; tauto|].
    split; [exact Hrslv | split; [exact Hrepr | exact Hcall]].
Defined.

(** What [encode] computes: the marker when it is truthy, [represent]
    otherwise. *)
Lemma encode_cases type obj marker :
  get obj REPR_TOKEN = Normal marker →
  Codec.encode type obj =
    Normal (if truthy marker then marker else JStr (represent type obj)).
Proof.
  intros Hget. unfold Codec.encode. rewrite Hget. simpl.
  by destruct (truthy marker).
Qed.

(** Encoding what [decode] made of a truthy value that is not an object
    gives the value back. *)
Lemma encode_decode_truthy type injector raw next :
  ¬ non_null_object raw → truthy raw = true →
  Codec.encode type (Codec.decode type injector raw next).1 = Normal raw.
Proof.
  intros Hobj Htruthy. apply truthy_object_false in Hobj.
  unfold Codec.decode. rewrite Hobj. simpl.
  rewrite (encode_cases _ _ raw); [by rewrite Htruthy | done].
Qed.

(** C3. The object that [decode] makes of the number [0] carries the
    representation marker [0], and the codec's own [is] recognises it; yet
    [encode] does not return the marker: it calls [represent] on the
    carrier, which for the test suite's types is [String(undefined)]. *)
Theorem encode_recomputes_falsy_marker :
  let obj := (Codec.decode Examples.SyncTestType Examples.injector0 (JNum 0) 0).1 in
  carries_marker obj ∧
  Codec.is_ obj = true ∧
  get obj REPR_TOKEN = Normal (JNum 0) ∧
  Codec.encode Examples.SyncTestType obj = Normal (JStr (represent Examples.SyncTestType obj)) ∧
  Codec.encode Examples.SyncTestType obj = Normal (JStr "undefined").
Proof.
  simpl. split_and!; [by eexists | done..].
Qed.

(** C8. For a type whose pattern matches the empty segment, decoding the
    empty string and encoding the result does not give the empty string
    back: [encode] finds the marker falsy and returns [represent] of the
    carrier. *)
Theorem encode_decode_empty_string :
  Codec.encode Examples.AnyTestType
    (Codec.decode Examples.AnyTestType Examples.injector0 (JStr "") 0).1
  = Normal (JStr "undefined") ∧
  Codec.encode Examples.AnyTestType
    (Codec.decode Examples.AnyTestType Examples.injector0 (JStr "") 0).1
  ≠ Normal (JStr "").
Proof. split; [reflexivity | discriminate]. Qed.

(** C7. [equals(a, b)] of an installed codec: when both arguments are
    objects that carry the representation marker, the strict equality of
    the two markers; else, when both are non-null objects, whether
    [represent(a)] and [represent(b)] are equal when case is ignored, that
    is, have one upper-case form under the engine's [toUpperCase] (on
    representations of ASCII characters: are equal up to the case of their
    letters); in every other case the strict equality of [a] and [b]. *)
Theorem equals_three_cases :
  ∀ (toUpperCase : string → string) (type : UrlType) (a b : JsVal),
    (carries_marker a ∧ carries_marker b →
       ∃ marker_a marker_b,
         get a REPR_TOKEN = Normal marker_a ∧ get b REPR_TOKEN = Normal marker_b ∧
         Codec.equals toUpperCase type a b = Normal (strict_equals marker_a marker_b)) ∧
    (¬ (carries_marker a ∧ carries_marker b) → non_null_object a ∧ non_null_object b →
       ∃ same : bool,
         Codec.equals toUpperCase type a b = Normal same ∧
         (same = true ↔
            equal_up_to_case toUpperCase (represent type a) (represent type b)) ∧
         (toUpperCase (represent type a) = toUpperCase_ASCII (represent type a) →
          toUpperCase (represent type b) = toUpperCase_ASCII (represent type b) →
          (same = true ↔ equal_ignoring_case (represent type a) (represent type b)))) ∧
    (¬ (non_null_object a ∧ non_null_object b) →
       Codec.equals toUpperCase type a b = Normal (strict_equals a b)).
Proof.
  intros toUpperCase type a b. unfold Codec.equals.
  assert (truthy a && truthy b && (typeof a =? "object") && (typeof b =? "object")
          = true ↔ non_null_object a ∧ non_null_object b) as Hobjects.
  { rewrite <- !truthy_object_iff. rewrite !andb_true_iff. tauto. }
  assert (truthy a && truthy b && (typeof a =? "object") && (typeof b =? "object") &&
          hasOwnProperty a REPR_TOKEN && hasOwnProperty b REPR_TOKEN
          = true ↔ carries_marker a ∧ carries_marker b) as Hmarkers.
  { rewrite <- !hasOwnProperty_carries. rewrite !andb_true_iff. tauto. }
  split_and!.
  - intros Hboth. pose proof Hboth as [Ha Hb]. apply Hmarkers in Hboth. rewrite Hboth.
    destruct a as [| |?|?| |?|? pa|? ?|? ?]; try done.
    destruct b as [| |?|?| |?|? pb|? ?|? ?]; try done.
    simpl. by eexists _, _.
  - intros Hnot Hobj.
    rewrite <- Hmarkers in Hnot. apply not_true_is_false in Hnot. rewrite Hnot.
    apply Hobjects in Hobj. rewrite Hobj.
    eexists. split_and!; [done | |].
    + unfold equal_up_to_case. apply String.eqb_eq.
    + intros Ha Hb. rewrite String.eqb_eq, Ha, Hb.
      apply toUpperCase_equal_ignoring_case.
  - intros Hnot.
    rewrite <- Hobjects in Hnot. apply not_true_is_false in Hnot. rewrite Hnot.
    simpl. done.
Qed.

Lemma equals_three_cases_witness :
  Codec.equals toUpperCase_ASCII Examples.SyncTestType
    (JObj 7 (<["pk" := JStr "ab"]> ∅)) (JObj 8 (<["pk" := JStr "AB"]> ∅)) = Normal true.
Proof.
  destruct (equals_three_cases toUpperCase_ASCII Examples.SyncTestType
              (JObj 7 (<["pk" := JStr "ab"]> ∅)) (JObj 8 (<["pk" := JStr "AB"]> ∅)))
    as (_ & Hrepresent & _).
  destruct Hrepresent as (same & Hequals & Hsame & Hletters).
  - intros [[x Hx] _]. vm_compute in Hx. discriminate Hx.
  - simpl. tauto.
  - rewrite Hequals. f_equal. apply Hletters; [reflexivity | reflexivity |].
    apply toUpperCase_equal_ignoring_case. reflexivity.
Defined.

(** C10. [equals] of an installed codec is symmetric. *)
Theorem equals_symmetric :
  ∀ (toUpperCase : string → string) (type : UrlType) (a b : JsVal),
    Codec.equals toUpperCase type a b = Codec.equals toUpperCase type b a.
Proof.
  intros toUpperCase type a b. unfold Codec.equals.
  rewrite (strict_equals_sym a b).
  rewrite (String.eqb_sym (toUpperCase (represent type a))).
  replace (truthy b && truthy a && (typeof b =? "object") && (typeof a =? "object"))
    with (truthy a && truthy b && (typeof a =? "object") && (typeof b =? "object"))
    by (destruct (truthy a), (truthy b), (typeof a =? "object"), (typeof b =? "object"); done).
  destruct (truthy a && truthy b && (typeof a =? "object") && (typeof b =? "object"));
    simpl; [|done].
  destruct (hasOwnProperty a REPR_TOKEN) eqn:Ha, (hasOwnProperty b REPR_TOKEN) eqn:Hb;
    simpl; try done.
  destruct a as [| |?|?| |?|? pa|? ?|? ?]; try done.
  destruct b as [| |?|?| |?|? pb|? ?|? ?]; try done.
  simpl. by rewrite strict_equals_sym.
Qed.

(** ** Typed parameters of a state *)

Lemma getTypeByName_is_Some svc type_name bindableOnly :
  is_Some (getTypeByName svc type_name bindableOnly) ↔
  type_name ∈ subset_names svc bindableOnly.
Proof.
  unfold getTypeByName, subset_names.
  destruct (find_by_name type_name _) eqn:E.
  - split; [intros _ | by eexists].
    apply find_by_name_Some in E as [Hin Hname]. rewrite <- Hname.
    apply list_elem_of_fmap. by eexists.
  - apply find_by_name_None in E. split; [by intros [? ?] | done].
Qed.

Lemma inner_loop_filter svc bindableOnly (entries : list (string * Param)) foundParams :
  fold_left
    (fun foundParams (entry : string * Param) =>
       let param := snd entry in
       match getTypeByName svc (param_type_name param) bindableOnly with
       | Some _ => foundParams ++ [param]
       | None => foundParams
       end)
    entries foundParams
  = foundParams ++
    filter (λ param, param_type_name param ∈ subset_names svc bindableOnly)
           (map snd entries).
Proof.
  revert foundParams. induction entries as [|[paramName param] rest IH];
    intros foundParams; simpl.
  - by rewrite app_nil_r.
  - rewrite IH. pose proof (getTypeByName_is_Some svc (param_type_name param) bindableOnly) as Hiff.
    destruct (getTypeByName svc (param_type_name param) bindableOnly) eqn:E.
    + rewrite filter_cons_True; [by rewrite <- app_assoc | apply Hiff; by eexists].
    + rewrite filter_cons_False; [done|]. intros Hin. apply Hiff in Hin as [? [=]].
Qed.

(** C9. [getTypeParamsFromStateObject(state, bindableOnly)] returns the
    parameters declared on the path of [state] whose type name is
    registered in the requested subset, each occurrence kept, in path
    order. It is a function of the service and the state and changes
    neither. *)
Theorem getTypeParamsFromStateObject_declared_and_registered :
  ∀ (svc : UrlTypeFactoryService) (state : StateObject) (bindableOnly : bool),
    getTypeParamsFromStateObject svc state bindableOnly =
    filter (λ param, param_type_name param ∈ subset_names svc bindableOnly)
           (declared_params state).
Proof.
  intros svc state bindableOnly.
  unfold getTypeParamsFromStateObject, declared_params.
  assert (∀ pathStates foundParams,
    fold_left
      (fun foundParams pathState =>
         let params := default [] (params pathState) in
         fold_left
           (fun foundParams (entry : string * Param) =>
              let param := snd entry in
              match getTypeByName svc (param_type_name param) bindableOnly with
              | Some _ => foundParams ++ [param]
              | None => foundParams
              end)
           params foundParams)
      pathStates foundParams
    = foundParams ++
      filter (λ param, param_type_name param ∈ subset_names svc bindableOnly)
        (concat (map (λ pathState, map snd (default [] (params pathState))) pathStates)))
    as Houter.
  { induction pathStates as [|pathState rest IH]; intros foundParams; simpl.
    - by rewrite app_nil_r.
    - rewrite IH, inner_loop_filter, filter_app. by rewrite <- app_assoc. }
  apply (Houter (path state) []).
Qed.

(** ** The transition resolver *)

Lemma holds_write_back targetParamId resolved node key :
  holds (write_back targetParamId resolved node) key =
  if decide (key = targetParamId)
  then match holds node key with
       | Some _ => Some resolved
       | None => None
       end
  else holds node key.
Proof.
  unfold write_back, holds. destruct (paramValues node) as [values|] eqn:E.
  - case_bool_decide as Hin; simpl.
    + case_decide as Hk.
      * subst key. destruct Hin as [x Hx]. by rewrite Hx, lookup_insert_eq.
      * by rewrite lookup_insert_ne.
    + rewrite E. case_decide as Hk; [|done]. subst key.
      destruct (values !! targetParamId) eqn:Ev; [|done].
      exfalso. apply Hin. by eexists.
  - rewrite E. case_decide; done.
Qed.

Section Settling.

Variable ToString : JsVal → string.
Variable tasks : list Task.

Lemma settle_run schedule tree :
  settle ToString tasks schedule tree = run ToString tasks schedule (start tasks tree).
Proof. done. Qed.


Lemma run_invariant (P : Settling → Prop) schedule st :
  P st → (∀ st i, P st → P (react ToString tasks i st)) →
  P (run ToString tasks schedule st).
Proof.
  intros H0 Hstep. revert st H0.
  induction schedule as [|i rest IH]; intros st H0; simpl; [done|].
  apply IH, Hstep, H0.
Qed.

(** A reaction slot changes at most once, from [Waiting], at its own
    event. *)
Lemma react_other i j st :
  i ≠ j → reactions (react ToString tasks i st) !! j = reactions st !! j.
Proof.
  intros Hne. unfold react.
  destruct (tasks !! i) as [task|]; [|done].
  destruct (reactions st !! i) as [[| |]|]; try done.
  destruct (awaited task); simpl; try done; by rewrite list_lookup_insert_ne.
Qed.




Lemma react_length i st :
  length (reactions (react ToString tasks i st)) = length (reactions st).
Proof.
  unfold react.
  destruct (tasks !! i) as [task|]; [|done].
  destruct (reactions st !! i) as [[| |]|]; try done.
  destruct (awaited task); simpl; try done; by rewrite length_insert.
Qed.

Lemma start_consistent tree : consistent ToString tasks (start tasks tree).
Proof.
  unfold consistent, start. simpl.
  apply Forall2_same_length_lookup. split; [by rewrite length_replicate|].
  intros i task r _ Hr. apply lookup_replicate in Hr as [-> _]. done.
Qed.

Lemma react_consistent i st :
  consistent ToString tasks st → consistent ToString tasks (react ToString tasks i st).
Proof.
  unfold consistent. intros Hc. unfold react.
  destruct (tasks !! i) as [task|] eqn:Ht; [|done].
  destruct (reactions st !! i) as [[| |]|] eqn:Hr; try done.
  destruct (awaited task) as [resolved|cause|] eqn:Ha; simpl; try done.
  - rewrite <- (list_insert_id tasks i task Ht). by apply Forall2_insert.
  - rewrite <- (list_insert_id tasks i task Ht). apply Forall2_insert; [done|].
    simpl. by exists cause.
Qed.

Lemma run_consistent schedule st :
  consistent ToString tasks st →
  consistent ToString tasks (run ToString tasks schedule st).
Proof.
  intros H. apply (run_invariant (consistent ToString tasks)); [done|].
  intros. by apply react_consistent.
Qed.






End Settling.

Section WriteBack.

Variable ToString : JsVal → string.
Variable tasks : list Task.


Lemma react_tree_length i st :
  length (treeParams (react ToString tasks i st)) = length (treeParams st).
Proof.
  unfold react.
  destruct (tasks !! i) as [task|]; [|done].
  destruct (reactions st !! i) as [[| |]|]; try done.
  destruct (awaited task); simpl; try done. by rewrite length_map.
Qed.


Lemma start_written tree key : written tasks (start tasks tree) key.
Proof.
  left. intros i task resolved _ _ Hr. simpl in Hr.
  apply lookup_replicate in Hr as [[=] _].
Qed.

Lemma react_written i st key : written tasks st key → written tasks (react ToString tasks i st) key.
Proof.
  intros Hw. unfold react.
  destruct (tasks !! i) as [task|] eqn:Ht; [|done].
  destruct (reactions st !! i) as [[| |]|] eqn:Hr; try done.
  destruct (awaited task) as [resolved|cause|] eqn:Ha; simpl; try done.
  - destruct (decide (targetParamId task = key)) as [Hkey|Hkey].
    + right. exists i, task, resolved. split_and!; try done. simpl.
      intros node Hin Hsome. apply list_elem_of_fmap in Hin as (node0 & -> & _).
      rewrite holds_write_back in Hsome |- *. rewrite decide_True in Hsome |- * by done.
      by destruct (holds node0 key).
    + destruct Hw as [Hnone|(j & other & v & Hj & Hid & Hv & Hall)].
      * left. simpl. intros j other v Hj Hid.
        destruct (decide (i = j)) as [->|Hne]; [congruence|].
        rewrite list_lookup_insert_ne by done. by apply (Hnone j other).
      * right. exists j, other, v. split_and!; try done. simpl.
        intros node Hin Hsome. apply list_elem_of_fmap in Hin as (node0 & -> & Hin0).
        rewrite holds_write_back in Hsome |- *. rewrite decide_False in Hsome |- * by done.
        by apply Hall.
  - destruct Hw as [Hnone|Hsome]; [|by right].
    left. simpl. intros j other v Hj Hid.
    destruct (decide (i = j)) as [->|Hne].
    + rewrite list_lookup_insert_eq by (by eapply lookup_lt_Some). done.
    + rewrite list_lookup_insert_ne by done. by apply (Hnone j other).
Qed.

Lemma run_written schedule st key :
  written tasks st key → written tasks (run ToString tasks schedule st) key.
Proof.
  intros H. apply (run_invariant ToString tasks (λ st, written tasks st key)); [done|].
  intros. by apply react_written.
Qed.





End WriteBack.

(** ** [doTransition] *)

Lemma get_truthy v key : truthy v = true → ∃ p, get v key = Normal p.
Proof. destruct v; simpl; try discriminate; by eauto. Qed.

Lemma targetParamPromise_field result :
  targetParamPromise result =
    (plain ← not_a_promise (promise_field result);
     if plain : bool then Promise_resolve result else settlement (promise_field result)).
Proof.
  unfold targetParamPromise, promise_field.
  destruct (truthy result) eqn:E; [|done].
  destruct (get_truthy result "$promise" E) as [p ->]. done.
Qed.

Lemma not_a_promise_total p : ∃ plain, not_a_promise p = Normal plain.
Proof.
  unfold not_a_promise. destruct (truthy p) eqn:E; simpl; [|by eauto].
  destruct (get_truthy p "then" E) as [p_then ->]. simpl. by eauto.
Qed.

Lemma thenable_native a o : thenable (JPromise a o).
Proof. done. Qed.

(** What one successful pass through the loop body does. *)
Lemma launch_Normal svc targetParams targetParamBindableIds id st st' :
  launch svc targetParams targetParamBindableIds id st = (Normal tt, st') →
  ∃ rslv result promise,
    get (default JUndefined (targetParams !! id)) RSLV_TOKEN = Normal rslv ∧
    call svc rslv (resolveCalls st) = (Normal result, resolveCalls st') ∧
    targetParamPromise result = Normal promise ∧
    targetPromises st' =
      targetPromises st ++ [{| targetParamId := id; awaited := promise |}] ∧
    treeChanges_to (transition st') = treeChanges_to (transition st).
Proof.
  unfold launch.
  destruct (get (default JUndefined (targetParams !! id)) RSLV_TOKEN) as [rslv| |];
    [|discriminate..].
  destruct (call svc rslv (resolveCalls st)) as [[result| |] calls] eqn:Hcall;
    [|discriminate..].
  destruct (targetParamPromise result) as [promise| |] eqn:Hp; [|discriminate..].
  intros [= <-]. exists rslv, result, promise. simpl. split_and!; try done.
  by case_bool_decide.
Qed.

Lemma launch_each_Normal svc targetParams targetParamBindableIds ids st st' :
  launch_each svc targetParams targetParamBindableIds ids st = (Normal tt, st') →
  map targetParamId (targetPromises st') = map targetParamId (targetPromises st) ++ ids ∧
  treeChanges_to (transition st') = treeChanges_to (transition st).
Proof.
  revert st. induction ids as [|id rest IH]; intros st; simpl.
  - intros [= <-]. by rewrite app_nil_r.
  - destruct (launch svc targetParams targetParamBindableIds id st)
      as [[[]| |] mid] eqn:Hl; [|discriminate..].
    intros Hrest. apply IH in Hrest as [Hids Htree].
    apply launch_Normal in Hl as (rslv & result & promise & _ & _ & _ & Htasks & Htree').
    rewrite Hids, Htasks, map_app, <- app_assoc. simpl. split; [done | congruence].
Qed.

Lemma doTransition_ids svc t calls launched :
  doTransition svc t calls = (Normal tt, launched) →
  map targetParamId (targetPromises launched) =
    getTypeIdsFromStateObject svc (targetState t) false.
Proof.
  unfold doTransition. intros H. by apply launch_each_Normal in H as [-> _].
Qed.

Lemma aggregate_fulfilled st values :
  aggregate st = AllFulfilled values ↔
  rejection st = None ∧ Forall2 (λ r v, r = Resolved v) (reactions st) values.
Proof.
  unfold aggregate. destruct (rejection st) as [error|].
  - split; [discriminate | by intros [[=] _]].
  - assert (∀ vs, mapM resolved_value (reactions st) = Some vs ↔
                  Forall2 (λ r v, r = Resolved v) (reactions st) vs) as Hm.
    { intros vs. rewrite mapM_Some.
      split; intros H; (eapply Forall2_impl; [exact H|]).
      - intros [| |] v; simpl; congruence.
      - by intros r v ->. }
    destruct (mapM resolved_value (reactions st)) as [vs|] eqn:E.
    + split.
      * intros [= <-]. split; [done | by apply Hm].
      * intros [_ H]. apply Hm in H. congruence.
    + split; [discriminate|]. intros [_ H]. apply Hm in H. congruence.
Qed.













Lemma passed_on_throws o e : passed_on o ≠ Throw e.
Proof.
  destruct o as [passed| |]; simpl; [|done..].
  by destruct (not_a_promise_total passed) as [[] ->].
Qed.





(** * Further properties *)

(** ** [configure] and the router's table *)

Lemma bindable_flag_true type : bindable_flag type = true ↔ bindable type = Some true.
Proof. unfold bindable_flag. destruct (bindable type) as [[]|]; naive_solver. Qed.

Lemma configure_types_fresh types router injector svc :
  NoDup (map name types) →
  (∀ n, n ∈ map name types → n ∉ map name (_registeredTypes svc)) →
  configure_types types router injector svc =
    (Normal tt,
     {| _registeredTypes := _registeredTypes svc ++ types;
        _bindableTypes :=
          _bindableTypes svc ++ filter (λ t, bindable t = Some true) types |},
     {| paramTypes := paramTypes router ++ map (table_entry injector) types |}).
Proof.
  revert router svc. induction types as [|type rest IH]; intros router svc Hnd Hfresh.
  - simpl. rewrite !app_nil_r. by destruct svc, router.
  - change (map name (type :: rest)) with (name type :: map name rest) in Hnd, Hfresh.
    apply NoDup_cons in Hnd as [Hhead Hnd]. cbn [configure_types].
    rewrite registerType_fresh by (apply Hfresh; by left).
    rewrite IH; [|done|].
    + cbn [_registeredTypes _bindableTypes paramTypes config_type].
      rewrite <- !app_assoc. do 2 f_equal. f_equal. f_equal.
      destruct (bindable_flag type) eqn:E.
      * by rewrite filter_cons_True by (by apply bindable_flag_true).
      * rewrite filter_cons_False; [done|].
        intros H. apply bindable_flag_true in H. congruence.
    + intros n Hn. cbn [_registeredTypes]. rewrite map_app.
      rewrite elem_of_app. intros [Hin|Hin].
      * revert Hin. apply Hfresh. by right.
      * apply list_elem_of_singleton in Hin. by subst n.
Qed.

Lemma configure_types_app before rest router injector svc svc' router' :
  configure_types before router injector svc = (Normal tt, svc', router') →
  configure_types (before ++ rest) router injector svc =
    configure_types rest router' injector svc'.
Proof.
  revert router svc. induction before as [|type before IH]; intros router svc; simpl.
  - by intros [= <- <-].
  - destruct (registerType type router injector svc) as [[[[]| |] mid] r]; try done.
    apply IH.
Qed.

(** X1. When the configured types have pairwise different names, the loop
    of [configure] registers all of them: the registered set is the
    configured list, the bindable subset its bindable members, and the
    router has received one definition per type, in the same order. *)
Theorem configure_registers_distinct_types :
  ∀ (types : list UrlType) (router : UIRouter) (injector : Injector),
    NoDup (map name types) →
    configure_types types router injector new_service =
      (Normal tt,
       {| _registeredTypes := types;
          _bindableTypes := filter (λ t, bindable t = Some true) types |},
       {| paramTypes := paramTypes router ++ map (table_entry injector) types |}).
Proof.
  intros types router injector Hnd.
  rewrite configure_types_fresh; [done | done |].
  intros n _. simpl. apply not_elem_of_nil.
Qed.

Lemma configure_registers_distinct_types_witness :
  configure_types
    [Examples.SyncTestType; Examples.AsyncTestType; Examples.FailingType]
    Examples.router0 Examples.injector0 new_service =
  (Normal tt,
   {| _registeredTypes :=
        [Examples.SyncTestType; Examples.AsyncTestType; Examples.FailingType];
      _bindableTypes := [Examples.SyncTestType; Examples.AsyncTestType] |},
   {| paramTypes :=
        map (table_entry Examples.injector0)
          [Examples.SyncTestType; Examples.AsyncTestType; Examples.FailingType] |}).
Proof.
  apply (configure_registers_distinct_types
           [Examples.SyncTestType; Examples.AsyncTestType; Examples.FailingType]
           Examples.router0 Examples.injector0).
  simpl. repeat constructor; set_solver.
Defined.

(** X2. When a configured type repeats the name of an earlier one, the
    loop of [configure] throws the registration error for that name at the
    first such type; the types before it stay registered and installed,
    the types after it are never registered. *)
Theorem configure_stops_at_first_duplicate :
  ∀ (before after : list UrlType) (duplicate : UrlType) (router : UIRouter)
    (injector : Injector),
    NoDup (map name before) →
    name duplicate ∈ map name before →
    configure_types (before ++ duplicate :: after) router injector new_service =
      (Throw (UrlTypeFactoryRegistrationError (registration_message (name duplicate))),
       {| _registeredTypes := before;
          _bindableTypes := filter (λ t, bindable t = Some true) before |},
       {| paramTypes := paramTypes router ++ map (table_entry injector) before |}).
Proof.
  intros before after duplicate router injector Hnd Hdup.
  erewrite configure_types_app;
    [|apply configure_types_fresh; [done | intros n _; apply not_elem_of_nil]].
  simpl. apply list_elem_of_fmap in Hdup as (first & Hname & Hin).
  by rewrite (registerType_taken duplicate _ injector _ first).
Qed.

Lemma configure_stops_at_first_duplicate_witness :
  configure_types
    [Examples.SyncTestType; Examples.SyncTestAgain; Examples.AsyncTestType]
    Examples.router0 Examples.injector0 new_service =
  (Throw (UrlTypeFactoryRegistrationError (registration_message "SyncTest")),
   {| _registeredTypes := [Examples.SyncTestType];
      _bindableTypes := [Examples.SyncTestType] |},
   {| paramTypes := [table_entry Examples.injector0 Examples.SyncTestType] |}).
Proof.
  apply (configure_stops_at_first_duplicate
           [Examples.SyncTestType] [Examples.AsyncTestType] Examples.SyncTestAgain
           Examples.router0 Examples.injector0).
  - simpl. repeat constructor; set_solver.
  - simpl. set_solver.
Defined.

(** X3. After any sequence of [registerType] calls, what the router has
    been given is exactly one definition per registered type, under the
    type's name and in registration order: a call that throws installs
    nothing, and no name is installed twice. *)
Theorem router_table_mirrors_registry :
  ∀ (calls : list UrlType) (router : UIRouter) (injector : Injector),
    let svc := (register_each calls router injector new_service).1 in
    let router' := (register_each calls router injector new_service).2 in
    paramTypes router' =
      paramTypes router ++ map (table_entry injector) (_registeredTypes svc) ∧
    NoDup (map name (_registeredTypes svc)).
Proof.
  intros calls router injector svc router'. unfold svc, router'.
  rewrite installed_definitions, register_each_registered. simpl.
  split; [done | apply first_of_each_name_NoDup].
Qed.

Lemma find_by_name_filter (P : UrlType → bool) type_name types :
  NoDup (map name types) →
  find_by_name type_name (filter (λ t, P t = true) types) =
  match find_by_name type_name types with
  | Some type => if P type then Some type else None
  | None => None
  end.
Proof.
  induction types as [|t rest IH]; intros Hnd; simpl; [done|].
  apply NoDup_cons in Hnd as [Hhead Hnd]. specialize (IH Hnd).
  destruct (name t =? type_name) eqn:E.
  - apply String.eqb_eq in E. destruct (P t) eqn:EP.
    + rewrite filter_cons_True by done. simpl. by rewrite E, String.eqb_refl.
    + rewrite filter_cons_False by congruence. rewrite IH.
      rewrite E in Hhead. apply find_by_name_None in Hhead. by rewrite Hhead.
  - destruct (P t) eqn:EP.
    + rewrite filter_cons_True by done. simpl. by rewrite E.
    + by rewrite filter_cons_False by congruence.
Qed.

(** X4. On a service filled by [registerType] calls, looking a name up
    among the bindable types gives the descriptor that the lookup among all
    registered types gives, provided its [bindable] flag is true, and
    [null] otherwise. *)
Theorem getTypeByName_bindable_lookup :
  ∀ (calls : list UrlType) (router : UIRouter) (injector : Injector)
    (type_name : string),
    let svc := (register_each calls router injector new_service).1 in
    getTypeByName svc type_name true =
    match getTypeByName svc type_name false with
    | Some type => if bindable_flag type then Some type else None
    | None => None
    end.
Proof.
  intros calls router injector type_name svc. unfold getTypeByName, svc.
  rewrite register_each_bindable by done.
  apply find_by_name_filter.
  rewrite register_each_registered. apply first_of_each_name_NoDup.
Qed.

(** ** The typed parameters of a state and the hook's criterion *)

Lemma outer_loop_filter svc bindableOnly (pathStates : list PathState) foundParams :
  fold_left
    (fun foundParams pathState =>
       let params := default [] (params pathState) in
       fold_left
         (fun foundParams (entry : string * Param) =>
            let param := snd entry in
            match getTypeByName svc (param_type_name param) bindableOnly with
            | Some _ => foundParams ++ [param]
            | None => foundParams
            end)
         params foundParams)
    pathStates foundParams
  = foundParams ++
    filter (λ param, param_type_name param ∈ subset_names svc bindableOnly)
      (concat (map (λ pathState, map snd (default [] (params pathState))) pathStates)).
Proof.
  revert foundParams. induction pathStates as [|pathState rest IH];
    intros foundParams; simpl.
  - by rewrite app_nil_r.
  - rewrite IH, inner_loop_filter, filter_app. by rewrite <- app_assoc.
Qed.

Lemma typed_params_filter svc state bindableOnly :
  getTypeParamsFromStateObject svc state bindableOnly =
  filter (λ param, param_type_name param ∈ subset_names svc bindableOnly)
         (declared_params state).
Proof. apply (outer_loop_filter svc bindableOnly (path state) []). Qed.

Lemma filter_sublist_impl {A} (P Q : A → Prop)
    `{!∀ x, Decision (P x)} `{!∀ x, Decision (Q x)} (l : list A) :
  (∀ x, P x → Q x) → filter P l `sublist_of` filter Q l.
Proof.
  intros Himpl. induction l as [|x l IH]; [constructor|].
  destruct (decide (P x)) as [HP|HP].
  - rewrite !filter_cons_True by auto. by constructor.
  - rewrite (filter_cons_False P) by done.
    destruct (decide (Q x)).
    + rewrite filter_cons_True by done. by constructor.
    + by rewrite filter_cons_False by done.
Qed.

(** X5. On a service filled by [registerType] calls, the bindable typed
    parameters of a state are a subsequence of its typed parameters, and so
    are their ids: every id for which [doTransition] may add a resolvable is
    one of the ids it resolves. *)
Theorem bindable_typed_params_among_typed_params :
  ∀ (calls : list UrlType) (router : UIRouter) (injector : Injector)
    (state : StateObject),
    let svc := (register_each calls router injector new_service).1 in
    getTypeParamsFromStateObject svc state true
      `sublist_of` getTypeParamsFromStateObject svc state false ∧
    getTypeIdsFromStateObject svc state true
      `sublist_of` getTypeIdsFromStateObject svc state false.
Proof.
  intros calls router injector state svc.
  assert (getTypeParamsFromStateObject svc state true
            `sublist_of` getTypeParamsFromStateObject svc state false) as Hsub.
  { rewrite !typed_params_filter. apply filter_sublist_impl.
    intros param. unfold subset_names, svc.
    rewrite register_each_bindable by done.
    rewrite !list_elem_of_fmap. intros (type & Hname & Hin).
    exists type. split; [done|]. by apply list_elem_of_filter in Hin as [_ Hin]. }
  split; [done|]. unfold getTypeIdsFromStateObject.
  exact (fmap_sublist param_id _ _ Hsub).
Qed.

(** X6. The criterion of the hook accepts a state exactly when some
    parameter declared along its path has the name of a registered type as
    its type name. *)
Theorem onStart_to_accepts_typed_states :
  ∀ (svc : UrlTypeFactoryService) (state : StateObject),
    onStart_to svc state = true ↔
    ∃ param, param ∈ declared_params state ∧
             param_type_name param ∈ map name (_registeredTypes svc).
Proof.
  intros svc state. unfold onStart_to. rewrite typed_params_filter.
  rewrite negb_true_iff, Nat.eqb_neq. split.
  - intros Hlen.
    destruct (filter _ (declared_params state)) as [|param found] eqn:E; [done|].
    assert (param ∈ filter
              (λ param, param_type_name param ∈ subset_names svc false)
              (declared_params state)) as Hfound by (rewrite E; left).
    apply list_elem_of_filter in Hfound as [Hname Hin]. by exists param.
  - intros (param & Hin & Hname) Hlen. apply nil_length_inv in Hlen.
    assert (param ∈ filter
              (λ param, param_type_name param ∈ subset_names svc false)
              (declared_params state)) as Hfound
      by (by apply list_elem_of_filter).
    rewrite Hlen in Hfound. by apply elem_of_nil in Hfound.
Qed.

Lemma settle_nothing ToString schedule tree :
  settle ToString [] schedule tree = start [] tree.
Proof.
  rewrite settle_run. apply (run_invariant ToString [] (λ st, st = start [] tree)); [done|].
  by intros st i ->.
Qed.

(** X7. For a target state that the criterion does not accept, the hook
    does not run; and had [doTransition] been called, it would have
    resolved nothing: it returns at once, makes no [resolve] call, adds no
    resolvable, and its aggregate is fulfilled with the empty list while
    every node keeps its values. *)
Theorem untyped_transition_passes_untouched :
  ∀ (ToString : JsVal → string) (svc : UrlTypeFactoryService) (t : Transition)
    (calls : list ResolveCall) (schedule : list nat),
    onStart_to svc (targetState t) = false →
    onStart svc t calls = None ∧
    doTransition svc t calls =
      (Normal tt, {| targetPromises := []; transition := t; resolveCalls := calls |}) ∧
    aggregate (settle ToString [] schedule (treeChanges_to t)) = AllFulfilled [] ∧
    treeParams (settle ToString [] schedule (treeChanges_to t)) = treeChanges_to t.
Proof.
  intros ToString svc t calls schedule Hto. split_and!.
  - unfold onStart. by rewrite Hto.
  - unfold onStart_to in Hto. apply negb_false_iff, Nat.eqb_eq, nil_length_inv in Hto.
    unfold doTransition, getTypeIdsFromStateObject. by rewrite Hto.
  - by rewrite settle_nothing.
  - by rewrite settle_nothing.
Qed.

Lemma untyped_transition_passes_untouched_witness :
  onStart Examples.service0 Examples.go_plain [] = None ∧
  doTransition Examples.service0 Examples.go_plain [] =
    (Normal tt, {| targetPromises := []; transition := Examples.go_plain;
                   resolveCalls := [] |}).
Proof.
  destruct (untyped_transition_passes_untouched Examples.String_
              Examples.service0 Examples.go_plain [] [])
    as (Hhook & Hdo & _).
  - vm_compute. reflexivity.
  - split; [exact Hhook | exact Hdo].
Defined.

(** ** The codec on the values it meets *)

Lemma decode_marker type injector raw next :
  ∃ rslv,
    (Codec.decode type injector raw next).1 =
      JObj next (<[RSLV_TOKEN := rslv]> (<[REPR_TOKEN := marker_of type raw]> ∅)) ∧
    (Codec.decode type injector raw next).2 = S (S next).
Proof.
  unfold Codec.decode.
  destruct raw; simpl; rewrite ?andb_false_r; eexists; split; reflexivity.
Qed.

Lemma carrier_marker a rslv marker :
  get (JObj a (<[RSLV_TOKEN := rslv]> (<[REPR_TOKEN := marker]> ∅))) REPR_TOKEN
    = Normal marker.
Proof. done. Qed.

Lemma strict_equals_refl v : strict_equals v v = true ↔ v ≠ JNaN.
Proof.
  destruct v as [| |b|n| |s|a ?|a ?|a ?]; simpl;
    rewrite ?Z.eqb_refl, ?String.eqb_refl, ?Nat.eqb_refl;
    try (by destruct b); naive_solver.
Qed.

Lemma equals_carriers toUpperCase type a b rslv_a rslv_b marker_a marker_b :
  Codec.equals toUpperCase type
    (JObj a (<[RSLV_TOKEN := rslv_a]> (<[REPR_TOKEN := marker_a]> ∅)))
    (JObj b (<[RSLV_TOKEN := rslv_b]> (<[REPR_TOKEN := marker_b]> ∅)))
  = Normal (strict_equals marker_a marker_b).
Proof. done. Qed.

(** X8. Encoding what [decode] has produced gives back the matched value
    when that value is truthy and no object, and gives [represent] of the
    object when the value is a non-null object whose representation is not
    the empty string. *)
Theorem encode_decode_round_trip :
  ∀ (type : UrlType) (injector : Injector) (raw : JsVal) (next : addr),
    (¬ non_null_object raw → truthy raw = true →
       Codec.encode type (Codec.decode type injector raw next).1 = Normal raw) ∧
    (non_null_object raw → represent type raw ≠ "" →
       Codec.encode type (Codec.decode type injector raw next).1
         = Normal (JStr (represent type raw))).
Proof.
  intros type injector raw next.
  destruct (decode_marker type injector raw next) as (rslv & -> & _).
  split.
  - intros Hobj Htruthy.
    rewrite (encode_cases _ _ _ (carrier_marker _ _ _)).
    destruct raw; simpl in *; try done; by rewrite Htruthy.
  - intros Hobj Hrepr.
    rewrite (encode_cases _ _ _ (carrier_marker _ _ _)).
    apply String.eqb_neq in Hrepr.
    destruct raw; simpl in *; try done; by rewrite Hrepr.
Qed.

Lemma encode_decode_round_trip_witness :
  Codec.encode Examples.SyncTestType
    (Codec.decode Examples.SyncTestType Examples.injector0 (JStr "7") 0).1
    = Normal (JStr "7") ∧
  Codec.encode Examples.SyncTestType
    (Codec.decode Examples.SyncTestType Examples.injector0 Examples.object1 0).1
    = Normal (JStr "1").
Proof.
  split.
  - apply (encode_decode_round_trip Examples.SyncTestType Examples.injector0 (JStr "7") 0).
    + simpl. tauto.
    + reflexivity.
  - apply (encode_decode_round_trip Examples.SyncTestType Examples.injector0
             Examples.object1 0).
    + simpl. tauto.
    + vm_compute. discriminate.
Defined.

Lemma get_marker_unless_nullish obj :
  obj ≠ JUndefined → obj ≠ JNull →
  ∃ marker, get obj REPR_TOKEN = Normal marker ∧
            (¬ carries_marker obj → marker = JUndefined).
Proof.
  intros Hu Hn. destruct obj as [| |b|n| |s|a props|a k|a o]; try done;
    try (by exists JUndefined).
  exists (default JUndefined (props !! REPR_TOKEN)). split; [done|].
  cbn [carries_marker]. intros Hno.
  destruct (props !! REPR_TOKEN) eqn:E; [|done]. destruct Hno. by eexists.
Qed.

(** X9. [encode] throws a [TypeError] on [null] and [undefined] and on
    nothing else; on every other value that does not carry the marker,
    primitives included, it returns [represent] of the value. *)
Theorem encode_throws_on_nullish_only :
  ∀ (type : UrlType) (obj : JsVal),
    (obj = JUndefined ∨ obj = JNull → Codec.encode type obj = Throw TypeError) ∧
    (obj ≠ JUndefined → obj ≠ JNull →
       ∃ v, Codec.encode type obj = Normal v ∧
            (¬ carries_marker obj → v = JStr (represent type obj))).
Proof.
  intros type obj. split.
  - by intros [-> | ->].
  - intros Hu Hn.
    destruct (get_marker_unless_nullish obj Hu Hn) as (marker & Hget & Hnone).
    rewrite (encode_cases type obj marker Hget). eexists. split; [done|].
    intros Hno. by rewrite (Hnone Hno).
Qed.

Lemma encode_throws_on_nullish_only_witness :
  Codec.encode Examples.SyncTestType JNull = Throw TypeError ∧
  ∃ v, Codec.encode Examples.SyncTestType (JNum 1) = Normal v ∧ v = JStr "undefined".
Proof.
  destruct (encode_throws_on_nullish_only Examples.SyncTestType JNull) as [Hthrows _].
  destruct (encode_throws_on_nullish_only Examples.SyncTestType (JNum 1)) as [_ Hreturns].
  split.
  - apply Hthrows. by right.
  - destruct Hreturns as (v & Hv & Hrepr); [discriminate | discriminate |].
    exists v. split; [exact Hv|]. apply Hrepr. simpl. tauto.
Defined.

(** X10. [equals] of a value with itself returns, and returns [true]
    unless the value is [NaN] or an object whose marker is [NaN]. *)
Theorem equals_reflexive_up_to_NaN :
  ∀ (toUpperCase : string → string) (type : UrlType) (a : JsVal),
    (∃ same, Codec.equals toUpperCase type a a = Normal same) ∧
    (Codec.equals toUpperCase type a a = Normal true ↔
       a ≠ JNaN ∧ get a REPR_TOKEN ≠ Normal JNaN).
Proof.
  intros toUpperCase type a. unfold Codec.equals.
  destruct a as [| |b|n| |s|a props|a k|a o]; simpl;
    rewrite ?Z.eqb_refl, ?String.eqb_refl, ?Nat.eqb_refl, ?andb_false_r; simpl;
    try (split; [by eexists | naive_solver]).
  - destruct b; (split; [by eexists | naive_solver]).
  - destruct (props !! REPR_TOKEN) as [marker|] eqn:E; simpl.
    + split; [by eexists|].
      pose proof (strict_equals_refl marker) as Hrefl.
      split.
      * intros [= H]. apply Hrefl in H. split; congruence.
      * intros [_ H]. f_equal. apply Hrefl. congruence.
    + split; [by eexists|]. done.
Qed.

(** X11. On two values that [decode] has produced, of whatever types,
    [equals] is the strict equality of the stored markers: for two objects
    the exact, case-sensitive equality of their representations, for two
    matched values their strict equality. *)
Theorem equals_of_decoded_values :
  ∀ (toUpperCase : string → string) (type type_a type_b : UrlType)
    (injector_a injector_b : Injector)
    (raw_a raw_b : JsVal) (next_a next_b : addr),
    Codec.equals toUpperCase type
      (Codec.decode type_a injector_a raw_a next_a).1
      (Codec.decode type_b injector_b raw_b next_b).1
    = Normal (strict_equals (marker_of type_a raw_a) (marker_of type_b raw_b)).
Proof.
  intros toUpperCase type type_a type_b injector_a injector_b raw_a raw_b next_a next_b.
  destruct (decode_marker type_a injector_a raw_a next_a) as (rslv_a & -> & _).
  destruct (decode_marker type_b injector_b raw_b next_b) as (rslv_b & -> & _).
  apply equals_carriers.
Qed.

(** X12. Decoding the same value twice in a row gives two different
    objects ([===] is false), which [equals] nevertheless finds equal,
    unless the value is [NaN]. *)
Theorem decoded_twice_distinct_but_equal :
  ∀ (toUpperCase : string → string) (type : UrlType) (injector : Injector)
    (raw : JsVal) (next : addr),
    raw ≠ JNaN →
    let first := Codec.decode type injector raw next in
    let second := Codec.decode type injector raw first.2 in
    strict_equals first.1 second.1 = false ∧
    Codec.equals toUpperCase type first.1 second.1 = Normal true.
Proof.
  intros toUpperCase type injector raw next Hnan first second. unfold second, first.
  destruct (decode_marker type injector raw next) as (rslv1 & -> & ->).
  destruct (decode_marker type injector raw (S (S next))) as (rslv2 & -> & _).
  split.
  - simpl. apply Nat.eqb_neq. lia.
  - rewrite equals_carriers. f_equal. apply strict_equals_refl.
    destruct raw; simpl; congruence.
Qed.

Lemma decoded_twice_distinct_but_equal_witness :
  strict_equals
    (Codec.decode Examples.SyncTestType Examples.injector0 (JStr "7") 0).1
    (Codec.decode Examples.SyncTestType Examples.injector0 (JStr "7") 2).1 = false ∧
  Codec.equals toUpperCase_ASCII Examples.SyncTestType
    (Codec.decode Examples.SyncTestType Examples.injector0 (JStr "7") 0).1
    (Codec.decode Examples.SyncTestType Examples.injector0 (JStr "7") 2).1 = Normal true.
Proof.
  apply (decoded_twice_distinct_but_equal toUpperCase_ASCII
           Examples.SyncTestType Examples.injector0
           (JStr "7") 0).
  discriminate.
Defined.

(** ** [doTransition]: resolvables, [resolve] calls and missing values *)





Lemma decode_resolver type injector raw next :
  get (Codec.decode type injector raw next).1 RSLV_TOKEN =
    Normal (JFun (S next)
              match raw with
              | JObj _ _ | JPromise _ _ => KReturn raw
              | _ => KResolve (name type) raw injector
              end).
Proof. unfold Codec.decode. destruct raw; simpl; rewrite ?andb_false_r; done. Qed.

Lemma call_decoded svc type injector raw next calls :
  non_null_object raw ∨ getTypeByName svc (name type) false = Some type →
  call svc
    (JFun (S next)
       match raw with
       | JObj _ _ | JPromise _ _ => KReturn raw
       | _ => KResolve (name type) raw injector
       end) calls
  = (Normal (resolver_result type injector raw), calls ++ resolver_calls type raw).
Proof.
  intros Hok. destruct raw; simpl; rewrite ?app_nil_r; try done;
    destruct Hok as [[] | ->]; done.
Qed.

(** One pass of the loop on a value that [decode] has produced. *)
Lemma launch_decoded svc targetParams targetParamBindableIds id st type injector raw next :
  targetParams !! id = Some (Codec.decode type injector raw next).1 →
  non_null_object raw ∨ getTypeByName svc (name type) false = Some type →
  launch svc targetParams targetParamBindableIds id st =
    match targetParamPromise (resolver_result type injector raw) with
    | Normal promise =>
        (Normal tt,
         {| targetPromises :=
              targetPromises st ++ [{| targetParamId := id; awaited := promise |}];
            transition :=
              if bool_decide (id ∈ targetParamBindableIds)
              then addResolvable {| token := id |} (transition st)
              else transition st;
            resolveCalls := resolveCalls st ++ resolver_calls type raw |})
    | Throw e => (Throw e, with_calls (resolveCalls st ++ resolver_calls type raw) st)
    | Foreign => (Foreign, with_calls (resolveCalls st ++ resolver_calls type raw) st)
    end.
Proof.
  intros Hvalue Hok. unfold launch. rewrite Hvalue. cbn [from_option Datatypes.id].
  rewrite decode_resolver, (call_decoded svc type injector raw next _ Hok).
  by destruct (targetParamPromise (resolver_result type injector raw)).
Qed.

(** The promises and the [resolve] calls of a loop over values that
    [decode] has produced. *)
Lemma launch_each_decoded svc targetParams targetParamBindableIds injector
    (type_of : string → UrlType) (raw_of : string → JsVal) ids st c st' :
  (∀ id, id ∈ ids →
     (∃ next, targetParams !! id =
                Some (Codec.decode (type_of id) injector (raw_of id) next).1) ∧
     (non_null_object (raw_of id) ∨
      getTypeByName svc (name (type_of id)) false = Some (type_of id))) →
  launch_each svc targetParams targetParamBindableIds ids st = (c, st') →
  ∃ done_ids new_tasks,
    done_ids `prefix_of` ids ∧
    (c = Normal tt → done_ids = ids) ∧
    resolveCalls st' =
      resolveCalls st ++ flat_map (λ id, resolver_calls (type_of id) (raw_of id)) done_ids ∧
    targetPromises st' = targetPromises st ++ new_tasks ∧
    Forall (λ task,
              targetParamPromise
                (resolver_result (type_of (targetParamId task)) injector
                   (raw_of (targetParamId task)))
              = Normal (awaited task)) new_tasks.
Proof.
  revert st. induction ids as [|id rest IH]; intros st Horigin; simpl.
  - intros [= <- <-]. exists [], []. rewrite !app_nil_r. by split_and!.
  - destruct (Horigin id) as [[next Hvalue] Hok]; [by left|].
    rewrite (launch_decoded _ _ _ _ _ _ _ _ _ Hvalue Hok).
    destruct (targetParamPromise (resolver_result (type_of id) injector (raw_of id)))
      as [promise| |] eqn:Hp.
    + intros Hrest. apply IH in Hrest as (done_ids & new_tasks & Hpre & Hall & Hcalls & Htasks & Hgood);
        [|intros id' Hin; apply Horigin; by right].
      exists (id :: done_ids), ({| targetParamId := id; awaited := promise |} :: new_tasks).
      split_and!.
      * by apply prefix_cons.
      * intros Hc. by rewrite Hall.
      * rewrite Hcalls. simpl. by rewrite <- app_assoc.
      * rewrite Htasks. simpl. by rewrite <- app_assoc.
      * constructor; [exact Hp | exact Hgood].
    + intros [= <- <-]. exists [id], []. simpl. rewrite !app_nil_r.
      split_and!; [apply prefix_cons, prefix_nil | done..].
    + intros [= <- <-]. exists [id], []. simpl. rewrite !app_nil_r.
      split_and!; [apply prefix_cons, prefix_nil | done..].
Qed.

(** X14. When every typed parameter of the target state has as its value
    what [decode] made of a non-null object, [doTransition] makes no call
    of any [resolve], however it completes. *)
Theorem doTransition_objects_never_resolved :
  ∀ (svc : UrlTypeFactoryService) (t : Transition) (calls : list ResolveCall)
    (injector : Injector) (type_of : string → UrlType) (raw_of : string → JsVal),
    (∀ id, id ∈ getTypeIdsFromStateObject svc (targetState t) false →
       (∃ next, params_to t !! id =
                  Some (Codec.decode (type_of id) injector (raw_of id) next).1) ∧
       non_null_object (raw_of id)) →
    resolveCalls (doTransition svc t calls).2 = calls.
Proof.
  intros svc t calls injector type_of raw_of Horigin.
  destruct (doTransition svc t calls) as [c launched] eqn:Hdo. unfold doTransition in Hdo.
  eapply (launch_each_decoded _ _ _ injector type_of raw_of) in Hdo
    as (done_ids & new_tasks & Hpre & _ & Hcalls & _).
  - simpl in *. rewrite Hcalls.
    assert (flat_map (λ id, resolver_calls (type_of id) (raw_of id)) done_ids = []) as ->;
      [|by rewrite app_nil_r].
    assert (∀ id, id ∈ done_ids → non_null_object (raw_of id)) as Hobjects.
    { intros id Hin. apply Horigin. destruct Hpre as [k ->]. apply elem_of_app. by left. }
    clear -Hobjects. induction done_ids as [|id rest IH]; simpl; [done|].
    rewrite IH by (intros; apply Hobjects; by right).
    specialize (Hobjects id ltac:(by left)).
    by destruct (raw_of id).
  - intros id Hin. destruct (Horigin id Hin) as [Hvalue Hobject]. split; [done | by left].
Qed.

Lemma doTransition_objects_never_resolved_witness :
  resolveCalls (doTransition Examples.service0 Examples.go_with_objects []).2 = [].
Proof.
  apply (doTransition_objects_never_resolved Examples.service0 Examples.go_with_objects []
           Examples.injector0
           (λ id, if String.eqb id "param1" then Examples.SyncTestType
                  else Examples.AsyncTestType)
           (λ id, if String.eqb id "param1" then Examples.object1 else Examples.object2)).
  intros id Hin. vm_compute in Hin.
  apply elem_of_cons in Hin as [->|Hin].
  - split; [by exists 0 | done].
  - apply list_elem_of_singleton in Hin as ->. split; [by exists 2 | done].
Defined.

(** X15. When every typed parameter has as its value what the codec of a
    registered type made of some value, and [doTransition] returns, then it
    has made exactly one call [resolve(raw, injector)] for each parameter
    decoded from a matched value [raw], in parameter order, and none for a
    parameter decoded from an object. *)
Theorem doTransition_resolves_each_matched_value_once :
  ∀ (svc : UrlTypeFactoryService) (t : Transition) (calls : list ResolveCall)
    (launched : Launched) (injector : Injector)
    (type_of : string → UrlType) (raw_of : string → JsVal),
    (∀ id, id ∈ getTypeIdsFromStateObject svc (targetState t) false →
       (∃ next, params_to t !! id =
                  Some (Codec.decode (type_of id) injector (raw_of id) next).1) ∧
       (non_null_object (raw_of id) ∨
        getTypeByName svc (name (type_of id)) false = Some (type_of id))) →
    doTransition svc t calls = (Normal tt, launched) →
    resolveCalls launched =
      calls ++
      flat_map (λ id, resolver_calls (type_of id) (raw_of id))
        (getTypeIdsFromStateObject svc (targetState t) false).
Proof.
  intros svc t calls launched injector type_of raw_of Horigin Hdo.
  unfold doTransition in Hdo.
  eapply (launch_each_decoded _ _ _ injector type_of raw_of) in Hdo
    as (done_ids & new_tasks & _ & Hall & Hcalls & _); [|exact Horigin].
  rewrite Hcalls. simpl. by rewrite (Hall eq_refl).
Qed.

Lemma doTransition_resolves_each_matched_value_once_witness :
  resolveCalls (doTransition Examples.service0 Examples.go_sync_async []).2
  = [("SyncTest", JNum 1); ("AsyncTest", JNum 1)].
Proof.
  apply (doTransition_resolves_each_matched_value_once Examples.service0
           Examples.go_sync_async []
           (doTransition Examples.service0 Examples.go_sync_async []).2
           Examples.injector0
           (λ id, if String.eqb id "param1" then Examples.SyncTestType
                  else Examples.AsyncTestType)
           (λ id, JNum 1)).
  - intros id Hin. vm_compute in Hin.
    apply elem_of_cons in Hin as [->|Hin].
    + split; [by exists 0 | by right].
    + apply list_elem_of_singleton in Hin as ->. split; [by exists 2 | by right].
  - vm_compute. reflexivity.
Defined.

Lemma targetParamPromise_throws result e :
  targetParamPromise result = Throw e → e = TypeError.
Proof.
  rewrite targetParamPromise_field.
  destruct (not_a_promise_total (promise_field result)) as [[] ->]; simpl.
  - unfold Promise_resolve.
    destruct (not_a_promise_total result) as [[] Hr];
      destruct result as [| |?|?| |?|a props|? ?|? ?]; rewrite ?Hr; try done.
    cbn [mbind Completion_bind].
    destruct (then_of (JObj a props)) as [[| | |o chained|]|]; try done.
    intros H. by apply passed_on_throws in H.
  - unfold settlement.
    destruct (promise_field result); try done;
      destruct (then_of _) as [[| | |o [|]|]|]; try done;
      try (by intros [= <-]); intros H; by apply passed_on_throws in H.
Qed.

Lemma launch_abnormal svc targetParams targetParamBindableIds id st c st' :
  launch svc targetParams targetParamBindableIds id st = (c, st') →
  c = Normal tt ∨ c = Throw TypeError ∨ c = Foreign.
Proof.
  unfold launch.
  destruct (get (default JUndefined (targetParams !! id)) RSLV_TOKEN)
    as [rslv|e|] eqn:Hget.
  - destruct (call svc rslv (resolveCalls st)) as [[result|e|] calls'] eqn:Hcall.
    + destruct (targetParamPromise result) as [promise|e|] eqn:Hp.
      * intros [= <- <-]. by left.
      * apply targetParamPromise_throws in Hp as ->. intros [= <- <-]. by auto.
      * intros [= <- <-]. by auto.
    + intros [= <- <-]. right. left. f_equal.
      unfold call in Hcall. repeat case_match; congruence.
    + intros [= <- <-]. by auto.
  - intros [= <- <-]. right. left. f_equal.
    destruct (default JUndefined (targetParams !! id)); simpl in Hget; congruence.
  - intros [= <- <-]. by auto.
Qed.

Lemma launch_no_resolver svc targetParams targetParamBindableIds id st :
  (∀ rslv, get (default JUndefined (targetParams !! id)) RSLV_TOKEN = Normal rslv →
           typeof rslv ≠ "function") →
  launch svc targetParams targetParamBindableIds id st = (Throw TypeError, st).
Proof.
  intros Hno. unfold launch.
  destruct (get (default JUndefined (targetParams !! id)) RSLV_TOKEN) as [rslv|e|] eqn:Hget.
  - specialize (Hno rslv eq_refl).
    destruct rslv; try (by destruct Hno); simpl; by destruct st.
  - destruct (default JUndefined (targetParams !! id)); simpl in Hget; congruence.
  - destruct (default JUndefined (targetParams !! id)); simpl in Hget; congruence.
Qed.

(** X16. When some typed parameter of the target state has no target value,
    or a value without a resolver function, [doTransition] returns no
    promise: it ends with a [TypeError] (or in code that is not the
    service's own). *)
Theorem doTransition_without_resolver_throws :
  ∀ (svc : UrlTypeFactoryService) (t : Transition) (calls : list ResolveCall)
    (id : string),
    id ∈ getTypeIdsFromStateObject svc (targetState t) false →
    (∀ rslv, get (default JUndefined (params_to t !! id)) RSLV_TOKEN = Normal rslv →
             typeof rslv ≠ "function") →
    (doTransition svc t calls).1 = Throw TypeError ∨
    (doTransition svc t calls).1 = Foreign.
Proof.
  intros svc t calls id Hin Hno. unfold doTransition.
  generalize ({| targetPromises := []; transition := t; resolveCalls := calls |}).
  induction (getTypeIdsFromStateObject svc (targetState t) false) as [|id' rest IH];
    intros st; [by apply elem_of_nil in Hin|].
  simpl. apply elem_of_cons in Hin as [<-|Hin].
  - rewrite launch_no_resolver by done. by left.
  - destruct (launch svc (params_to t) _ id' st) as [c mid] eqn:Hl.
    destruct (launch_abnormal _ _ _ _ _ _ _ Hl) as [->|[->| ->]]; simpl; auto.
Qed.

Lemma doTransition_without_resolver_throws_witness :
  (doTransition Examples.service0 Examples.go_without_param2 []).1 = Throw TypeError ∨
  (doTransition Examples.service0 Examples.go_without_param2 []).1 = Foreign.
Proof.
  apply (doTransition_without_resolver_throws Examples.service0
           Examples.go_without_param2 [] "param2").
  - vm_compute. right. left.
  - intros rslv Hget. vm_compute in Hget. discriminate Hget.
Defined.

(** ** What the reactions write *)

Lemma write_back_None targetParamId resolved node :
  paramValues node = None → write_back targetParamId resolved node = node.
Proof. unfold write_back. by intros ->. Qed.

Lemma write_back_commute id1 v1 id2 v2 node :
  id1 ≠ id2 →
  write_back id1 v1 (write_back id2 v2 node) =
  write_back id2 v2 (write_back id1 v1 node).
Proof.
  intros Hne. unfold write_back.
  destruct (paramValues node) as [values|] eqn:E; [|by rewrite E].
  destruct (bool_decide (is_Some (values !! id2))) eqn:E2;
    destruct (bool_decide (is_Some (values !! id1))) eqn:E1;
    cbn [paramValues]; rewrite ?E, ?E1, ?E2;
    rewrite ?lookup_insert_ne by done; rewrite ?E1, ?E2; try done.
  by rewrite insert_insert_ne.
Qed.

Section Order.

Variable ToString : JsVal → string.
Variable tasks : list Task.

(** The promise whose reactions the [i]-th event runs, if it runs any. *)
Lemma react_cases i st :
  (react ToString tasks i st = st ∧
   ∀ task, tasks !! i = Some task → reactions st !! i = Some Waiting →
           awaited task = NeverSettles) ∨
  (∃ task resolved,
     tasks !! i = Some task ∧ reactions st !! i = Some Waiting ∧
     awaited task = Fulfills resolved ∧
     treeParams (react ToString tasks i st) =
       map (write_back (targetParamId task) resolved) (treeParams st) ∧
     reactions (react ToString tasks i st) = <[i := Resolved resolved]> (reactions st)) ∨
  (∃ task cause,
     tasks !! i = Some task ∧ reactions st !! i = Some Waiting ∧
     awaited task = Rejects cause ∧
     treeParams (react ToString tasks i st) = treeParams st ∧
     reactions (react ToString tasks i st) =
       <[i := Failed (UrlTypeFactoryResolveError
                        (resolve_message ToString (targetParamId task) cause))]>
         (reactions st)).
Proof.
  unfold react.
  destruct (tasks !! i) as [task|] eqn:Ht; [|left; split; [done | by intros ? [=]]].
  destruct (reactions st !! i) as [[| |]|] eqn:Hr;
    try (left; split; [done | by intros ? _ [=]]).
  destruct (awaited task) as [resolved|cause|] eqn:Ha.
  - right. left. by exists task, resolved.
  - right. right. by exists task, cause.
  - left. split; [done|]. by intros ? [= <-] _.
Qed.

(** A parameter that is no typed parameter of the transition keeps its
    value in every node. *)
Lemma run_keeps_other_values schedule st key k node :
  key ∉ map targetParamId tasks →
  treeParams st !! k = Some node →
  ∃ node', treeParams (run ToString tasks schedule st) !! k = Some node' ∧
           holds node' key = holds node key ∧
           (paramValues node = None → node' = node).
Proof.
  intros Hkey. revert st node. induction schedule as [|i rest IH]; intros st node Hk.
  - exists node. by split_and!.
  - simpl. fold (run ToString tasks rest (react ToString tasks i st)).
    destruct (react_cases i st)
      as [[-> _]|[(task & resolved & Ht & _ & _ & Htree & _)|(task & cause & _ & _ & _ & Htree & _)]].
    + by apply IH.
    + destruct (IH (react ToString tasks i st) (write_back (targetParamId task) resolved node))
        as (node' & Hnode' & Hholds & Hnone).
      { rewrite Htree, list_lookup_fmap, Hk. done. }
      exists node'. split_and!; [done | |].
      * rewrite Hholds, holds_write_back. rewrite decide_False; [done|].
        intros ->. apply Hkey. apply list_elem_of_fmap. exists task.
        split; [done|]. apply list_elem_of_lookup. by exists i.
      * intros Hn.
        pose proof (write_back_None (targetParamId task) resolved node Hn) as Hwb.
        rewrite Hwb in Hnone. by apply Hnone.
    + apply IH. by rewrite Htree.
Qed.

Lemma react_same_nodes i st st' :
  same_nodes_and_reactions st st' →
  same_nodes_and_reactions (react ToString tasks i st) (react ToString tasks i st').
Proof.
  intros [Htree Hre]. unfold react. rewrite <- Hre.
  destruct (tasks !! i) as [task|]; [|done].
  destruct (reactions st !! i) as [[| |]|]; try done.
  destruct (awaited task); split; simpl; congruence.
Qed.

Lemma run_same_nodes schedule st st' :
  same_nodes_and_reactions st st' →
  same_nodes_and_reactions (run ToString tasks schedule st)
                           (run ToString tasks schedule st').
Proof.
  revert st st'. induction schedule as [|i rest IH]; intros st st' H; [done|].
  simpl. apply IH. by apply react_same_nodes.
Qed.

Lemma react_tree i st :
  treeParams (react ToString tasks i st) =
  match tasks !! i, reactions st !! i with
  | Some task, Some Waiting =>
      match awaited task with
      | Fulfills resolved =>
          map (write_back (targetParamId task) resolved) (treeParams st)
      | _ => treeParams st
      end
  | _, _ => treeParams st
  end.
Proof.
  unfold react. destruct (tasks !! i) as [task|]; [|done].
  destruct (reactions st !! i) as [[| |]|]; try done.
  by destruct (awaited task).
Qed.

Lemma react_reactions i st :
  reactions (react ToString tasks i st) =
  match tasks !! i, reactions st !! i with
  | Some task, Some Waiting =>
      match awaited task with
      | Fulfills resolved => <[i := Resolved resolved]> (reactions st)
      | Rejects cause =>
          <[i := Failed (UrlTypeFactoryResolveError
                           (resolve_message ToString (targetParamId task) cause))]>
            (reactions st)
      | NeverSettles => reactions st
      end
  | _, _ => reactions st
  end.
Proof.
  unfold react. destruct (tasks !! i) as [task|]; [|done].
  destruct (reactions st !! i) as [[| |]|]; try done.
  by destruct (awaited task).
Qed.

(** Reactions to promises of different parameters commute. *)
Lemma react_swap i j st :
  NoDup (map targetParamId tasks) →
  same_nodes_and_reactions
    (react ToString tasks i (react ToString tasks j st))
    (react ToString tasks j (react ToString tasks i st)).
Proof.
  intros Hnd. destruct (decide (i = j)) as [->|Hne]; [done|].
  assert (∀ ti tj, tasks !! i = Some ti → tasks !! j = Some tj →
                   targetParamId ti ≠ targetParamId tj) as Hids.
  { intros ti tj Hi Hj Heq. apply Hne.
    eapply (NoDup_lookup _ i j (targetParamId ti)); [exact Hnd | |].
    - by rewrite list_lookup_fmap, Hi.
    - by rewrite list_lookup_fmap, Hj, Heq. }
  unfold same_nodes_and_reactions.
  rewrite (react_tree i (react ToString tasks j st)),
    (react_tree j (react ToString tasks i st)),
    (react_reactions i (react ToString tasks j st)),
    (react_reactions j (react ToString tasks i st)).
  rewrite (react_other ToString tasks j i st) by done.
  rewrite (react_other ToString tasks i j st) by done.
  rewrite !react_tree, !react_reactions.
  destruct (tasks !! i) as [ti|] eqn:Hi; [|done].
  destruct (tasks !! j) as [tj|] eqn:Hj; [|done].
  specialize (Hids ti tj eq_refl eq_refl).
  destruct (reactions st !! i) as [[| |]|]; try done;
    destruct (reactions st !! j) as [[| |]|]; try done;
    destruct (awaited ti), (awaited tj); try done;
    split; try done; try (by apply list_insert_insert_ne).
  rewrite !map_map. apply map_ext. intros node. by apply write_back_commute.
Qed.

(** The nodes and the reactions do not depend on the order of the events
    when no two promises belong to one parameter id. *)
Lemma run_permutation schedule1 schedule2 st st' :
  NoDup (map targetParamId tasks) →
  schedule1 ≡ₚ schedule2 →
  same_nodes_and_reactions st st' →
  same_nodes_and_reactions (run ToString tasks schedule1 st)
                           (run ToString tasks schedule2 st').
Proof.
  intros Hnd Hperm. revert st st'.
  induction Hperm as [|i l1 l2 _ IH|i j l|l1 l2 l3 _ IH1 _ IH2]; intros st st' Hsame.
  - done.
  - simpl. apply IH. by apply react_same_nodes.
  - simpl. apply run_same_nodes.
    destruct (react_swap i j st Hnd) as [Htree Hre].
    destruct (react_same_nodes j _ _ (react_same_nodes i _ _ Hsame)) as [Htree' Hre'].
    split; congruence.
  - destruct (IH1 st st (conj eq_refl eq_refl)) as [Htree1 Hre1].
    destruct (IH2 st st' Hsame) as [Htree2 Hre2].
    split; congruence.
Qed.

End Order.

(** X17. Whatever promises [doTransition] has collected and in whatever
    order they settle, the reactions change no value of a parameter id that
    is not among the typed parameter ids: every node keeps the value it
    held for such an id, a node without parameter values stays as it is,
    and no node is added or removed. *)
Theorem reactions_leave_other_parameters :
  ∀ (ToString : JsVal → string) (tasks : list Task) (schedule : list nat)
    (tree : list PathNode) (key : string),
    key ∉ map targetParamId tasks →
    length (treeParams (settle ToString tasks schedule tree)) = length tree ∧
    ∀ k node, tree !! k = Some node →
      ∃ node', treeParams (settle ToString tasks schedule tree) !! k = Some node' ∧
               holds node' key = holds node key ∧
               (paramValues node = None → node' = node).
Proof.
  intros ToString tasks schedule tree key Hkey. rewrite settle_run. split.
  - apply (run_invariant ToString tasks
             (λ st, length (treeParams st) = length tree)); [done|].
    intros st i Hlen. by rewrite react_tree_length.
  - intros k node Hk. by apply run_keeps_other_values.
Qed.

Lemma reactions_leave_other_parameters_witness :
  ∃ node',
    treeParams (settle Examples.String_
                  [{| targetParamId := "param1"; awaited := Fulfills (JNum 5) |}]
                  [0]
                  [{| paramValues := Some (<["param1" := JNum 1]> (<["q" := JStr "x"]> ∅)) |}])
      !! 0 = Some node' ∧
    holds node' "q" = Some (JStr "x").
Proof.
  destruct (reactions_leave_other_parameters Examples.String_
              [{| targetParamId := "param1"; awaited := Fulfills (JNum 5) |}]
              [0]
              [{| paramValues := Some (<["param1" := JNum 1]> (<["q" := JStr "x"]> ∅)) |}]
              "q") as [_ Hnodes].
  - simpl. intros Hin. apply list_elem_of_singleton in Hin. discriminate Hin.
  - destruct (Hnodes 0 _ eq_refl) as (node' & Hnode' & Hholds & _).
    exists node'. split; [exact Hnode'|]. rewrite Hholds. reflexivity.
Defined.

(** X18. When the collected promises belong to pairwise different
    parameter ids, the values the nodes end up with, and which promises
    have been reacted to, do not depend on the order in which the promises
    settle. *)
Theorem settlement_order_does_not_matter :
  ∀ (ToString : JsVal → string) (tasks : list Task)
    (schedule1 schedule2 : list nat) (tree : list PathNode),
    NoDup (map targetParamId tasks) →
    schedule1 ≡ₚ schedule2 →
    treeParams (settle ToString tasks schedule1 tree) =
      treeParams (settle ToString tasks schedule2 tree) ∧
    reactions (settle ToString tasks schedule1 tree) =
      reactions (settle ToString tasks schedule2 tree).
Proof.
  intros ToString tasks schedule1 schedule2 tree Hnd Hperm. rewrite !settle_run.
  by apply run_permutation.
Qed.

Lemma settlement_order_does_not_matter_witness :
  treeParams (settle Examples.String_
                (targetPromises (doTransition Examples.service0 Examples.go_sync_async []).2)
                [0; 1] (treeChanges_to Examples.go_sync_async)) =
  treeParams (settle Examples.String_
                (targetPromises (doTransition Examples.service0 Examples.go_sync_async []).2)
                [1; 0] (treeChanges_to Examples.go_sync_async)).
Proof.
  apply (settlement_order_does_not_matter Examples.String_
           (targetPromises (doTransition Examples.service0 Examples.go_sync_async []).2)
           [0; 1] [1; 0] (treeChanges_to Examples.go_sync_async)).
  - vm_compute. repeat constructor; set_solver.
  - apply perm_swap.
Defined.

(** X19. End to end: when every typed parameter of the target state has as
    its value what the codec of a registered type made of some value, and
    the aggregate of [doTransition] is fulfilled, then a node that contains
    a typed parameter id holds for it the value that the promise made of
    the resolver's result was fulfilled with; the resolver's result is the
    object itself for a parameter given as an object, and
    [resolve(raw, injector)] for one given as a matched value. *)
Theorem nodes_hold_what_the_resolvers_give :
  ∀ (ToString : JsVal → string) (svc : UrlTypeFactoryService) (t : Transition)
    (calls : list ResolveCall) (launched : Launched) (schedule : list nat)
    (values : list JsVal) (injector : Injector)
    (type_of : string → UrlType) (raw_of : string → JsVal),
    (∀ id, id ∈ getTypeIdsFromStateObject svc (targetState t) false →
       (∃ next, params_to t !! id =
                  Some (Codec.decode (type_of id) injector (raw_of id) next).1) ∧
       (non_null_object (raw_of id) ∨
        getTypeByName svc (name (type_of id)) false = Some (type_of id))) →
    doTransition svc t calls = (Normal tt, launched) →
    let st := settle ToString (targetPromises launched) schedule (treeChanges_to t) in
    aggregate st = AllFulfilled values →
    ∀ id node,
      id ∈ getTypeIdsFromStateObject svc (targetState t) false →
      node ∈ treeParams st → is_Some (holds node id) →
      ∃ resolved,
        holds node id = Some resolved ∧
        targetParamPromise (resolver_result (type_of id) injector (raw_of id))
          = Normal (Fulfills resolved).
Proof.
  intros ToString svc t calls launched schedule values injector type_of raw_of
    Horigin Hdo st Hall id node Hid Hnode Hsome.
  pose proof (doTransition_ids _ _ _ _ Hdo) as Hids.
  unfold doTransition in Hdo.
  eapply (launch_each_decoded _ _ _ injector type_of raw_of) in Hdo
    as (done_ids & new_tasks & _ & _ & _ & Htasks & Hgood); [|exact Horigin].
  simpl in Htasks. rewrite <- Htasks in Hgood.
  rewrite <- Hids in Hid. apply list_elem_of_fmap in Hid as (task & -> & Htask).
  apply list_elem_of_lookup in Htask as [i Hi].
  apply aggregate_fulfilled in Hall as [_ Hall].
  pose proof (run_consistent ToString (targetPromises launched) schedule _
                (start_consistent ToString (targetPromises launched) (treeChanges_to t))) as Hc.
  destruct (Forall2_lookup_l _ _ _ _ _ Hc Hi) as (r & Hr & _).
  rewrite <- settle_run in Hr. fold st in Hr.
  destruct (Forall2_lookup_l _ _ _ _ _ Hall Hr) as (v & _ & ->).
  pose proof (run_written ToString (targetPromises launched) schedule _ (targetParamId task)
                (start_written (targetPromises launched) (treeChanges_to t) _)) as Hw.
  rewrite <- settle_run in Hw. fold st in Hw.
  destruct Hw as [Hnone|(j & other & resolved & Hj & Hsame & Hful & Hnodes)].
  { exfalso. by apply (Hnone i task v). }
  exists resolved. split; [by apply Hnodes|].
  rewrite Forall_forall in Hgood.
  assert (other ∈ targetPromises launched) as Hother
    by (apply list_elem_of_lookup; by exists j).
  specialize (Hgood other Hother).
  rewrite Hsame in Hgood. by rewrite Hgood, Hful.
Qed.

Lemma nodes_hold_what_the_resolvers_give_witness :
  ∃ resolved,
    holds {| paramValues :=
               Some (<["param1" := Examples.object1]>
                       (<["param2" := Examples.object2]> ∅)) |} "param1"
      = Some resolved ∧
    Normal (Fulfills Examples.object1) = Normal (Fulfills resolved).
Proof.
  apply (nodes_hold_what_the_resolvers_give Examples.String_ Examples.service0
           Examples.go_with_objects []
           (doTransition Examples.service0 Examples.go_with_objects []).2 [0; 1]
           [Examples.object1; Examples.object2] Examples.injector0
           (λ id, if String.eqb id "param1" then Examples.SyncTestType
                  else Examples.AsyncTestType)
           (λ id, if String.eqb id "param1" then Examples.object1 else Examples.object2)).
  - intros id Hin. vm_compute in Hin.
    apply elem_of_cons in Hin as [->|Hin].
    + split; [by exists 0 | by left].
    + apply list_elem_of_singleton in Hin as ->. split; [by exists 2 | by left].
  - vm_compute. reflexivity.
  - vm_compute. reflexivity.
  - vm_compute. left.
  - apply list_elem_of_lookup. exists 1. vm_compute. reflexivity.
  - vm_compute. by eexists.
Defined.
